(** * Music Assistant: media model, media controllers, sync jobs and player commands

    A shallow embedding of the parts of the Music Assistant server that the
    specification makes claims about, and the theorems that settle them.

    - [MediaItems]      : common/models/media_items.py
    - [MediaController] : server/controllers/media/base.py
    - [MusicManager]    : music_manager.py
    - [PlayerManager]   : player_manager.py

    Python values are modelled as follows: [int] as [Z]; [float] as an exact
    rational [Q] (the claims only exercise values on which binary floating
    point is exact); [str] as [string]; [Optional[T]] as [option T]; [set] as
    [gset]; [dict] as [gmap]; exceptions as an explicit outcome. *)

From Stdlib Require Import ZArith QArith Qcanon Lia List Ascii Sorted.
From stdpp Require Import base decidable countable gmap list strings pretty.

Local Open Scope Z_scope.

(** Python's [int(x)] on a float: truncation toward zero. *)
Definition py_int (q : Q) : Z := Z.quot (Qnum q) (Z.pos (Qden q)).

Module MediaItems.

(** ** Enums used by [ProviderMapping]

    [ContentType] and [ProviderType] live in common/models/enums.py.  The
    members below are the ones the sources name; [CT_OTHER] and [PT_OTHER]
    stand for every remaining member. *)
Inductive ContentType :=
  | OGG | FLAC | MP3 | AAC | UNKNOWN | CT_OTHER (name : string).

Inductive ProviderType :=
  | PT_DATABASE | PT_FILESYSTEM | PT_OTHER (name : string).

#[global] Instance ContentType_eq_dec : EqDecision ContentType.
Proof. solve_decision. Defined.

#[global] Instance ProviderType_eq_dec : EqDecision ProviderType.
Proof. solve_decision. Defined.

(** ** ProviderMapping (frozen dataclass) *)
Record ProviderMapping := mkProviderMapping {
  item_id : string;
  provider_type : ProviderType;
  provider_id : string;
  available : bool;
  content_type : ContentType;
  sample_rate : Z;
  bit_depth : Z;
  bit_rate : Z;
  details : option string;
  url : option string }.

#[global] Instance ProviderMapping_eq_dec : EqDecision ProviderMapping.
Proof. solve_decision. Defined.

(** [@dataclass(frozen=True)] generates [__eq__], which compares the tuples
    of all fields. *)
Definition ProviderMapping_eq (a b : ProviderMapping) : bool :=
  bool_decide (a = b).

(** [__hash__] returns [hash((self.provider_type, self.item_id))]: the hash
    is a function [hash] of this pair. *)
Definition hash_key (m : ProviderMapping) : ProviderType * string :=
  (provider_type m, item_id m).

Definition ProviderMapping_hash {H : Type} (hash : ProviderType * string -> H)
    (m : ProviderMapping) : H :=
  hash (hash_key m).

(** The key the specification speaks of: (provider instance id, item id). *)
Definition mapping_key (m : ProviderMapping) : string * string :=
  (provider_id m, item_id m).

Section Quality.
(** [ContentType.is_lossless] is declared in enums.py. *)
Variable is_lossless : ContentType -> bool.

(** [ProviderMapping.quality] *)
Definition quality (m : ProviderMapping) : Z :=
  if is_lossless (content_type m) then
    py_int (inject_Z (sample_rate m) / inject_Z 1000) + bit_depth m
  else
    let score := (inject_Z (bit_rate m) / inject_Z 100)%Q in
    let score :=
      if bool_decide (content_type m = AAC \/ content_type m = OGG)
      then (score + 1)%Q else score in
    py_int score.

(** The codec preference addition of a lossy content type. *)
Definition codec_bonus (c : ContentType) : Z :=
  if bool_decide (c = AAC \/ c = OGG) then 1 else 0.
End Quality.

(** ** MediaItemMetadata and its merge *)

(** [ImageType] and [LinkType] are string-valued enums of enums.py; a member
    is represented by its value. *)
Definition ImageType := string.
Definition LinkType := string.

Record MediaItemLink := mkMediaItemLink { link_type : LinkType; link_url : string }.

Record MediaItemImage := mkMediaItemImage {
  image_type : ImageType; image_url : string; is_file : bool }.

#[global] Instance MediaItemLink_eq_dec : EqDecision MediaItemLink.
Proof. solve_decision. Defined.

#[global] Instance MediaItemLink_countable : Countable MediaItemLink.
Proof.
  refine (inj_countable' (fun l => (link_type l, link_url l))
                         (fun p => mkMediaItemLink p.1 p.2) _).
  now intros [].
Defined.

#[global] Instance MediaItemImage_eq_dec : EqDecision MediaItemImage.
Proof. solve_decision. Defined.

Record MediaItemMetadata := mkMediaItemMetadata {
  description : option string;
  review : option string;
  explicit : option bool;
  images : option (list MediaItemImage);
  genres : option (gset string);
  mood : option string;
  style : option string;
  copyright : option string;
  lyrics : option string;
  ean : option string;
  label : option string;
  links : option (gset MediaItemLink);
  performers : option (gset string);
  preview : option string;
  replaygain : option Q;
  popularity : option Z;
  last_refresh : option Z;
  checksum : option string }.

(** Python truth values of the field types. *)
Definition truthy_str (s : string) : bool := negb (bool_decide (s = ""%string)).
Definition truthy_int (z : Z) : bool := negb (z =? 0).
Definition truthy_bool (b : bool) : bool := b.
Definition truthy_float (q : Q) : bool := negb (Qeq_bool q 0).
Definition truthy_list {A} (l : list A) : bool :=
  match l with [] => false | _ => true end.
Definition truthy_set `{Countable A} (s : gset A) : bool :=
  negb (bool_decide (s = ∅)).

Section UpdateField.
Context {A : Type}.
(** [isinstance(cur_val, list)] and [isinstance(cur_val, set)] for a
    non-null current value of this field. *)
Variable is_list is_set : bool.
(** [merge_lists] at this field's type (only used when [is_list]). *)
Variable merge : A -> A -> A.
Variable truthy : A -> bool.
(** [fld.name in ("checksum", "popularity", "last_refresh")] *)
Variable always_overwritable : bool.

(** The body of the loop of [MediaItemMetadata.update] for one field: the
    value the field holds after the iteration. *)
Definition update_field (allow_overwrite : bool) (cur new : option A) : option A :=
  match new with
  | None => cur                               (* new_val is None: continue *)
  | Some new_val =>
      match cur with
      | Some cur_val =>
          if is_list then Some (merge cur_val new_val)
          else if is_set then None            (* set.update returns None *)
          else if allow_overwrite then Some new_val
          else if truthy new_val && always_overwritable then Some new_val
          else cur
      | None => Some new_val                  (* cur_val is None *)
      end
  end.
End UpdateField.

Section MetadataUpdate.
(** [merge_lists] is imported from common/helpers/util.py. *)
Variable merge_lists :
  list MediaItemImage -> list MediaItemImage -> list MediaItemImage.

Definition no_merge {A} (cur new : A) : A := new.

Definition update_scalar {A} (truthy : A -> bool) :=
  update_field false false no_merge truthy false.
Definition update_always {A} (truthy : A -> bool) :=
  update_field false false no_merge truthy true.
Definition update_set `{Countable A} :=
  update_field (A := gset A) false true no_merge truthy_set false.
Definition update_list :=
  update_field true false merge_lists truthy_list false.

(** [MediaItemMetadata.update]: the loop over [fields(self)], unrolled in
    declaration order. *)
Definition update (self new_values : MediaItemMetadata)
    (allow_overwrite : bool) : MediaItemMetadata :=
  let u {A} (f : bool -> option A -> option A -> option A)
        (get : MediaItemMetadata -> option A) :=
    f allow_overwrite (get self) (get new_values) in
  {| description := u (update_scalar truthy_str) description;
     review := u (update_scalar truthy_str) review;
     explicit := u (update_scalar truthy_bool) explicit;
     images := u update_list images;
     genres := u update_set genres;
     mood := u (update_scalar truthy_str) mood;
     style := u (update_scalar truthy_str) style;
     copyright := u (update_scalar truthy_str) copyright;
     lyrics := u (update_scalar truthy_str) lyrics;
     ean := u (update_scalar truthy_str) ean;
     label := u (update_scalar truthy_str) label;
     links := u update_set links;
     performers := u update_set performers;
     preview := u (update_scalar truthy_str) preview;
     replaygain := u (update_scalar truthy_float) replaygain;
     popularity := u (update_always truthy_int) popularity;
     last_refresh := u (update_always truthy_int) last_refresh;
     checksum := u (update_always truthy_str) checksum |}.
End MetadataUpdate.

Definition empty_metadata : MediaItemMetadata :=
  mkMediaItemMetadata None None None None None None None None None
                      None None None None None None None None None.

(** ** MediaItem and its provider mappings *)

#[global] Instance ContentType_countable : Countable ContentType.
Proof.
  refine (inj_countable'
    (fun c => match c with
              | OGG => inl 0%nat | FLAC => inl 1%nat | MP3 => inl 2%nat
              | AAC => inl 3%nat | UNKNOWN => inl 4%nat
              | CT_OTHER n => inr n end)
    (fun x => match x with
              | inl 0%nat => OGG | inl 1%nat => FLAC | inl 2%nat => MP3
              | inl 3%nat => AAC | inl _ => UNKNOWN
              | inr n => CT_OTHER n end) _).
  now intros [].
Defined.

#[global] Instance ProviderType_countable : Countable ProviderType.
Proof.
  refine (inj_countable'
    (fun c => match c with
              | PT_DATABASE => inl false | PT_FILESYSTEM => inl true
              | PT_OTHER n => inr n end)
    (fun x => match x with
              | inl false => PT_DATABASE | inl true => PT_FILESYSTEM
              | inr n => PT_OTHER n end) _).
  now intros [].
Defined.

#[global] Instance ProviderMapping_countable : Countable ProviderMapping.
Proof.
  refine (inj_countable'
    (fun m => (item_id m, provider_type m, provider_id m, available m,
               content_type m, sample_rate m, bit_depth m, bit_rate m,
               details m, url m))
    (fun t => match t with
              | (a, b, c, d, e, f, g, h, i, j) =>
                  mkProviderMapping a b c d e f g h i j
              end) _).
  now intros [].
Defined.

(** [MediaType] of enums.py. *)
Inductive MediaType :=
  | ARTIST | ALBUM | TRACK | PLAYLIST | RADIO | MT_UNKNOWN.

(** The base dataclass [MediaItem].  Its fields carry the prefix [mi_]
    where [ProviderMapping] has a field of the same name. *)
Record MediaItem := mkMediaItem {
  mi_item_id : string;
  mi_provider : ProviderType;
  name : string;
  provider_mappings : gset ProviderMapping;
  metadata : MediaItemMetadata;
  in_library : bool;
  media_type : MediaType;
  sort_name : option string;
  uri : option string;
  timestamp : Z }.

Definition set_provider_mappings (self : MediaItem)
    (s : gset ProviderMapping) : MediaItem :=
  {| mi_item_id := mi_item_id self; mi_provider := mi_provider self;
     name := name self; provider_mappings := s; metadata := metadata self;
     in_library := in_library self; media_type := media_type self;
     sort_name := sort_name self; uri := uri self;
     timestamp := timestamp self |}.

(** [MediaItem.add_provider_mapping]: the set comprehension keeps every [x]
    that does not agree with [prov_mapping] on both [item_id] and
    [provider_id]; then [prov_mapping] is added. *)
Definition add_provider_mapping (self : MediaItem)
    (prov_mapping : ProviderMapping) : MediaItem :=
  let kept : gset ProviderMapping :=
    filter (fun x => ~ (item_id x = item_id prov_mapping
                        /\ provider_id x = provider_id prov_mapping))
           (provider_mappings self) in
  set_provider_mappings self (kept ∪ {[ prov_mapping ]}).

(** ** Derived values of a media item *)

(** [MediaItem.available]: any mapping is available. *)
Definition mi_available (self : MediaItem) : bool :=
  existsb available (elements (provider_mappings self)).

(** [str.split(sep)] for a separator of one character. *)
Fixpoint split (sep : Ascii.ascii) (s : string) : list string :=
  match s with
  | EmptyString => [EmptyString]
  | String c s' =>
      if bool_decide (c = sep) then EmptyString :: split sep s'
      else match split sep s' with
           | part :: parts => String c part :: parts
           | [] => [String c EmptyString]
           end
  end.

(** [Track.isrcs]: the values of the [isrc] field, which are separated by
    semicolons; the tuple is given as a list. *)
Definition isrcs (isrc : option string) : list string :=
  match isrc with
  | None => []
  | Some s => if bool_decide (s = EmptyString) then [] else split ";"%char s
  end.

End MediaItems.

(** * server/controllers/media/base.py *)

Module MediaController.

(** ** Exceptions and the controller monad *)

Inductive error := MediaNotFoundError | ValueError | AssertionError.

Inductive result (A : Type) :=
  | Return (a : A)
  | Raise (e : error).
Arguments Return {A} a.
Arguments Raise {A} e.

(** ** Data read by the controller *)

(** The attributes of a provider mapping that base.py reads. *)
Record ProviderMapping := mkProviderMapping {
  item_id : string;
  provider_domain : string;
  provider_instance : string;
  available : bool }.

#[global] Instance ProviderMapping_eq_dec : EqDecision ProviderMapping.
Proof. solve_decision. Defined.

#[global] Instance ProviderMapping_countable : Countable ProviderMapping.
Proof.
  refine (inj_countable'
    (fun m => (item_id m, provider_domain m, provider_instance m, available m))
    (fun t => match t with (a, b, c, d) => mkProviderMapping a b c d end) _).
  now intros [].
Defined.

(** A media item as the controller sees it ([ItemCls]); [last_refresh] is
    [metadata.last_refresh]. *)
Record Item := mkItem {
  mi_item_id : string;
  provider : string;
  uri : string;
  in_library : bool;
  provider_mappings : gset ProviderMapping;
  last_refresh : option Z }.

(** What a caller may pass as [details]: a full item or an [ItemMapping]. *)
Inductive Details :=
  | FullItem (i : Item)
  | ItemMapping (mapping_provider : string) (mapping_item_id : string).

(** ** The database *)

(** A row of the controller's own table ([self.db_table]). *)
Record Row := mkRow {
  row_item_id : Z;
  row_in_library : bool;
  row_provider_mappings : gset ProviderMapping;
  row_last_refresh : option Z }.

(** A row of the table [DB_TABLE_PROVIDER_MAPPINGS]. *)
Record MappingRow := mkMappingRow {
  pm_media_type : string;
  pm_item_id : Z;
  pm_provider_domain : string;
  pm_provider_instance : string;
  pm_provider_item_id : string }.

#[global] Instance MappingRow_eq_dec : EqDecision MappingRow.
Proof. solve_decision. Defined.

Record Database := mkDatabase {
  db_table : list Row;
  provider_mappings_table : list MappingRow }.

Inductive EventType := MEDIA_ITEM_ADDED | MEDIA_ITEM_UPDATED | MEDIA_ITEM_DELETED.

(** [signal_event(event, object_id, data)] *)
Record Event := mkEvent {
  event : EventType;
  object_id : string;
  data : Item }.

(** A music provider as used by [get_provider_item]. *)
Record Provider := mkProvider {
  instance_id : string;
  get_item : string -> string -> option Item }.


(** Everything the controller reads and writes: the database, the cache,
    the events signalled so far (oldest first), the background tasks created
    so far as (task id, item), and the [get_item] calls made on providers as
    (instance id, item id). *)
Record State := mkState {
  database : Database;
  cache : gmap string Item;
  events : list Event;
  tasks : list (string * Item);
  provider_calls : list (string * string) }.

Definition M (A : Type) : Type := State -> result A * State.

Definition ret {A} (a : A) : M A := fun st => (Return a, st).
Definition raise {A} (e : error) : M A := fun st => (Raise e, st).
Definition bind {A B} (m : M A) (k : A -> M B) : M B :=
  fun st =>
    match m st with
    | (Return a, st') => k a st'
    | (Raise e, st') => (Raise e, st')
    end.

Notation "'let*' x ':=' m 'in' k" := (bind m (fun x => k))
  (at level 10, x pattern, m at level 100, k at level 200).

Definition set_database (f : Database -> Database) : M unit :=
  fun st => (Return tt,
             mkState (f (database st)) (cache st) (events st) (tasks st)
                     (provider_calls st)).

Definition signal_event (e : EventType) (id : string) (d : Item) : M unit :=
  fun st => (Return tt,
             mkState (database st) (cache st) (events st ++ [mkEvent e id d])
                     (tasks st) (provider_calls st)).

Definition cache_set (key : string) (v : Item) : M unit :=
  fun st => (Return tt,
             mkState (database st) (<[key := v]> (cache st)) (events st)
                     (tasks st) (provider_calls st)).

Definition create_task (task_id : string) (d : Item) : M unit :=
  fun st => (Return tt,
             mkState (database st) (cache st) (events st)
                     (tasks st ++ [(task_id, d)]) (provider_calls st)).

Definition log_provider_call (inst id : string) : M unit :=
  fun st => (Return tt,
             mkState (database st) (cache st) (events st) (tasks st)
                     (provider_calls st ++ [(inst, id)])).

(** [database.delete(table, match)] and [database.update(table, match, values)]
    on the two tables. *)
Definition delete_rows (id : Z) (db : Database) : Database :=
  mkDatabase (List.filter (fun r => negb (bool_decide (row_item_id r = id))) (db_table db))
             (provider_mappings_table db).

Definition delete_mapping_rows (keep : MappingRow -> bool) (db : Database) : Database :=
  mkDatabase (db_table db) (List.filter keep (provider_mappings_table db)).

Definition update_provider_mappings (id : Z) (s : gset ProviderMapping)
    (db : Database) : Database :=
  mkDatabase
    (List.map (fun r => if bool_decide (row_item_id r = id)
                        then mkRow (row_item_id r) (row_in_library r) s
                                   (row_last_refresh r)
                        else r) (db_table db))
    (provider_mappings_table db).

(** [database.get_row(table, {"item_id": id})] *)
Definition get_row (id : Z) (db : Database) : option Row :=
  List.find (fun r => bool_decide (row_item_id r = id)) (db_table db).

Definition REFRESH_INTERVAL : Z := 60 * 60 * 24 * 30.

(** Python's rendering of a possibly-null string in an f-string. *)
Definition fmt (o : option string) : string := default "None"%string o.

Section Controller.
(** [self.media_type.value] *)
Variable media_type : string.
(** [create_uri] of common/helpers/uri.py, used when an item is built. *)
Variable create_uri : string -> string -> string -> string.
(** Python's [int(s)] on a string; [None] when it raises [ValueError]. *)
Variable parse_int : string -> option Z.
(** [self.mass.get_provider] *)
Variable get_provider : option string -> option Provider.
(** The abstract method [add]. *)
Variable add : Item -> M Item.

(** [item_cls.from_db_row]: the provider of a database item is
    ["database"] and its item id is the text of the row id. *)
Definition from_db_row (r : Row) : Item :=
  mkItem (pretty (row_item_id r)) "database"
         (create_uri media_type "database" (pretty (row_item_id r)))
         (row_in_library r) (row_provider_mappings r) (row_last_refresh r).

(** [get_db_item] on an integer id. *)
Definition get_db_item (item_id : Z) : M Item :=
  fun st =>
    match get_row item_id (database st) with
    | Some db_row => (Return (from_db_row db_row), st)
    | None => (Raise MediaNotFoundError, st)
    end.

(** [get_db_item] on a string id: [int(item_id)] comes first. *)
Definition get_db_item_str (item_id : string) : M Item :=
  match parse_int item_id with
  | Some id => get_db_item id
  | None => raise ValueError
  end.

(** [delete].  The assertion on [db_item] cannot fail: [get_db_item]
    returns an item or raises. *)
Definition delete (item_id : Z) : M unit :=
  let* db_item := get_db_item item_id in
  let* _ := set_database (delete_rows item_id) in
  let* _ := set_database (delete_mapping_rows (fun r =>
              negb (bool_decide (pm_media_type r = media_type
                                 /\ pm_item_id r = item_id)))) in
  signal_event MEDIA_ITEM_DELETED (uri db_item) db_item.

(** [with suppress(AssertionError): ...] *)
Definition suppress_AssertionError (m : M unit) : M unit :=
  fun st =>
    match m st with
    | (Raise AssertionError, st') => (Return tt, st')
    | r => r
    end.

Definition set_item_provider_mappings (i : Item) (s : gset ProviderMapping) : Item :=
  mkItem (mi_item_id i) (provider i) (uri i) (in_library i) s (last_refresh i).

(** [remove_prov_mapping] *)
Definition remove_prov_mapping (item_id : Z) (provider_instance_id : string)
    : M unit :=
  fun st =>
    match get_db_item item_id st with
    | (Raise MediaNotFoundError, _) => (Return tt, st)
    | (Raise e, st') => (Raise e, st')
    | (Return db_item, st') =>
        (let* _ := set_database (delete_mapping_rows (fun r =>
                     negb (bool_decide
                             (pm_media_type r = media_type
                              /\ pm_item_id r = item_id
                              /\ pm_provider_instance r = provider_instance_id)))) in
         let db_item :=
           set_item_provider_mappings db_item
             (filter (fun x => provider_instance x <> provider_instance_id)
                     (provider_mappings db_item)) in
         if bool_decide (provider_mappings db_item <> ∅) then
           let* _ := set_database
                       (update_provider_mappings item_id (provider_mappings db_item)) in
           signal_event MEDIA_ITEM_UPDATED (uri db_item) db_item
         else
           suppress_AssertionError (delete item_id)) st'
    end.

(** [get_db_items_by_prov_id] for a provider other than ["database"]: the
    sub-query selects the item ids of the index rows whose instance or
    domain is the given one and whose provider item id is among the given
    ones; the query returns the rows with such an id, in table order, at
    most [limit = 500] of them. *)
Definition get_db_items_by_prov_id (prov : string)
    (provider_item_ids : option (list string)) : M (list Item) :=
  fun st =>
    let db := database st in
    let subquery :=
      List.map pm_item_id
        (List.filter
           (fun r =>
              (bool_decide (pm_provider_instance r = prov)
               || bool_decide (pm_provider_domain r = prov))
              && match provider_item_ids with
                 | Some ids => bool_decide (pm_provider_item_id r ∈ ids)
                 | None => true
                 end)
           (provider_mappings_table db)) in
    (Return (List.map from_db_row
               (firstn 500
                  (List.filter (fun r => bool_decide (row_item_id r ∈ subquery))
                               (db_table db)))), st).

(** [get_db_item_by_prov_id] *)
Definition get_db_item_by_prov_id (item_id prov : string) : M (option Item) :=
  if bool_decide (prov = "database"%string) then
    let* i := get_db_item_str item_id in ret (Some i)
  else
    let* l := get_db_items_by_prov_id prov (Some [item_id]) in
    ret (head l).

(** [get_provider_mapping]: the first available mapping of a registered
    provider, file systems first.  The set is iterated in the order of
    [elements]. *)
Definition get_provider_mapping (item : Item) : M (option string * option string) :=
  let* item := (if bool_decide (provider item = "database"%string)
                then get_db_item_str (mi_item_id item) else ret item) in
  let pick (prefer_file : bool) :=
    List.find
      (fun m =>
         available m
         && negb (prefer_file && negb (String.prefix "filesystem" (provider_domain m)))
         && bool_decide (is_Some (get_provider (Some (provider_instance m)))))
      (elements (provider_mappings item)) in
  match pick true with
  | Some m => ret (Some (provider_instance m), Some (item_id m))
  | None =>
      match pick false with
      | Some m => ret (Some (provider_instance m), Some (item_id m))
      | None => ret (None, None)
      end
  end.

(** [get_provider_item] *)
Definition get_provider_item (item_id prov : option string) (force_refresh : bool)
    : M Item :=
  let cache_key :=
    ("provider_item." +:+ media_type +:+ "." +:+ fmt prov +:+ "." +:+ fmt item_id)%string in
  if bool_decide (prov = Some "database"%string) then
    get_db_item_str (fmt item_id)
  else fun st =>
    match (if force_refresh then None else cache st !! cache_key) with
    | Some cached => (Return cached, st)
    | None =>
        match get_provider prov with
        | Some p =>
            (let* _ := log_provider_call (instance_id p) (fmt item_id) in
             match get_item p media_type (fmt item_id) with
             | Some item => let* _ := cache_set cache_key item in ret item
             | None => raise MediaNotFoundError
             end) st
        | None => (Raise MediaNotFoundError, st)
        end
    end.

(** [time() - (db_item.metadata.last_refresh or 0) > REFRESH_INTERVAL] *)
Definition refresh_due (now : Q) (db_item : Item) : bool :=
  negb (Qle_bool (now - inject_Z (default 0 (last_refresh db_item)))
                 (inject_Z REFRESH_INTERVAL)).

(** The part of [get] after the database lookup: fetch the details that
    are not there yet, then add the item to the database or not.  The second
    test [if not details] of the source cannot fire, as [get_provider_item]
    returns an item or raises. *)
Definition fetch_and_add (item_id prov : option string)
    (force_refresh lazy : bool) (details : option Item) (add_to_db : bool)
    : M Item :=
  let* details := match details with
                  | Some d => ret d
                  | None => get_provider_item item_id prov force_refresh
                  end in
  if negb add_to_db then ret details
  else
    let task_id :=
      ("add_" +:+ media_type +:+ "." +:+ provider details +:+ "."
       +:+ mi_item_id details)%string in
    let* _ := create_task task_id details in
    if negb lazy then add details      (* await add_task; add_task.result() *)
    else ret details.

(** The [details] that [get] keeps: full provider details; details of a
    database item and an [ItemMapping] are invalidated. *)
Definition usable_details (details : option Details) : option Item :=
  match details with
  | Some (FullItem d) =>
      if bool_decide (provider d = "database"%string) then None else Some d
  | Some (ItemMapping _ _) => None
  | None => None
  end.

(** [get]; [now] is the value [time()] returns. *)
Definition get (item_id prov : string) (force_refresh lazy : bool)
    (details : option Details) (add_to_db : bool) (now : Q) : M Item :=
  if negb add_to_db && bool_decide (prov = "database"%string) then
    get_db_item_str item_id
  else
    let details := usable_details details in
    let* db_item := get_db_item_by_prov_id item_id prov in
    match db_item with
    | Some db_item =>
        let force_refresh :=
          if refresh_due now db_item then true else force_refresh in
        if force_refresh && add_to_db then
          let* pi := get_provider_mapping db_item in
          fetch_and_add (snd pi) (fst pi) force_refresh lazy details add_to_db
        else ret db_item
    | None =>
        fetch_and_add (Some item_id) (Some prov) force_refresh lazy details add_to_db
    end.
End Controller.

(** ** Library flag, paging and search strings *)

Definition set_row_in_library (id : Z) (flag : bool) (db : Database) : Database :=
  mkDatabase
    (List.map (fun r => if bool_decide (row_item_id r = id)
                        then mkRow (row_item_id r) flag (row_provider_mappings r)
                                   (row_last_refresh r)
                        else r) (db_table db))
    (provider_mappings_table db).

(** [PagedItems] of media_items.py. *)
Record PagedItems := mkPagedItems {
  paged_items : list Item;
  paged_count : nat;
  paged_limit : nat;
  paged_offset : nat;
  paged_total : nat }.

(** [str.replace(old, new)] for one character [old]. *)
Fixpoint replace_char (old : Ascii.ascii) (new : string) (s : string) : string :=
  match s with
  | EmptyString => EmptyString
  | String c s' =>
      if bool_decide (c = old) then (new +:+ replace_char old new s')%string
      else String c (replace_char old new s')
  end.

(** The safe search string of [search]:
    [search_query.replace("/", " ").replace("'", "")]. *)
Definition safe_search_string (search_query : string) : string :=
  replace_char "'"%char "" (replace_char "/"%char " " search_query).

Section Listing.
Variable media_type : string.
Variable create_uri : string -> string -> string -> string.
(** The rows that the query built by [db_items] from [in_library], [search]
    and [order_by] matches, in the order of the query, all of them. *)
Variable run_query : option bool -> option string -> string -> Database -> list Row.

(** [set_db_library] *)
Definition set_db_library (item_id : Z) (in_library : bool) : M unit :=
  let* _ := set_database (set_row_in_library item_id in_library) in
  let* db_item := get_db_item media_type create_uri item_id in
  signal_event MEDIA_ITEM_UPDATED (uri db_item) db_item.

(** [db_items]: one page of the rows the query matches.  The total is
    computed from the page when the page is neither empty nor full, and
    counted by the database otherwise. *)
Definition db_items (in_library : option bool) (search : option string)
    (limit offset : nat) (order_by : string) (db : Database) : PagedItems :=
  let result := run_query in_library search order_by db in
  let items := List.map (from_db_row media_type create_uri)
                        (firstn limit (skipn offset result)) in
  let count := length items in
  let total :=
    if (0 <? count)%nat && (count <? limit)%nat then (offset + count)%nat
    else length result in
  mkPagedItems items count limit offset total.

(** The loop of [iter_db_items] from a given offset, with pages of
    [limit] rows: the items yielded, or [None] when the fuel is used up. *)
Fixpoint iter_pages (fuel : nat) (in_library : option bool) (search : option string)
    (order_by : string) (limit offset : nat) (db : Database) : option (list Item) :=
  match fuel with
  | O => None
  | S fuel =>
      let next_items := db_items in_library search limit offset order_by db in
      if (paged_count next_items <? limit)%nat then Some (paged_items next_items)
      else option_map (app (paged_items next_items))
             (iter_pages fuel in_library search order_by limit (offset + limit) db)
  end.

(** [iter_db_items]: pages of 500 rows from offset 0. *)
Definition iter_db_items (fuel : nat) (in_library : option bool)
    (search : option string) (order_by : string) (db : Database) : option (list Item) :=
  iter_pages fuel in_library search order_by 500 0 db.
End Listing.

End MediaController.

(** * music_manager.py *)

Module MusicManager.

Inductive error := KeyError | IndexError | ValueError | ProviderError.

Inductive result (A : Type) :=
  | Return (a : A)
  | Raise (e : error).
Arguments Return {A} a.
Arguments Raise {A} e.

(** ** Media items of models/media_types.py, as far as the manager reads
    them *)

Record MediaItemProviderId := mkProviderId {
  provider : string;
  item_id : string;
  quality : Z }.

Record Track := mkTrack {
  track_item_id : string;
  track_provider_ids : list MediaItemProviderId }.

Record Playlist := mkPlaylist {
  playlist_item_id : string;
  playlist_provider_ids : list MediaItemProviderId;
  checksum : option string;
  is_editable : bool }.

(** A music provider: its listing of a playlist's tracks and the values
    its two edit operations return. *)
Record MusicProvider := mkMusicProvider {
  playlist_tracks : string -> list Track;
  add_playlist_tracks_result : string -> list string -> bool;
  remove_playlist_tracks_result : string -> list string -> bool }.

(** An edit forwarded to a provider: provider id, playlist id on that
    provider, track ids. *)
Inductive ProviderOp :=
  | AddPlaylistTracks (prov playlist_id : string) (track_ids : list string)
  | RemovePlaylistTracks (prov playlist_id : string) (track_ids : list string).

(** A sync job tag: (provider id, job description). *)
Definition sync_job : Type := string * string.

(** The manager and what it reaches through [self.mass]: the running sync
    jobs, the payloads of the MUSIC_SYNC_STATUS events signalled so far, the
    lines logged, the playlist table of the database, the providers, and
    the edits forwarded to providers. *)
Record State := mkState {
  running_sync_jobs : list sync_job;
  sync_events : list (list sync_job);
  log : list string;
  playlists : gmap string Playlist;
  providers : gmap string MusicProvider;
  forwarded : list ProviderOp }.

Definition M (A : Type) : Type := State -> result A * State.

Definition ret {A} (a : A) : M A := fun st => (Return a, st).
Definition raise {A} (e : error) : M A := fun st => (Raise e, st).
Definition bind {A B} (m : M A) (k : A -> M B) : M B :=
  fun st =>
    match m st with
    | (Return a, st') => k a st'
    | (Raise e, st') => (Raise e, st')
    end.

Notation "'let*' x ':=' m 'in' k" := (bind m (fun x => k))
  (at level 10, x pattern, m at level 100, k at level 200).

Definition set_running_sync_jobs (jobs : list sync_job) (st : State) : State :=
  mkState jobs (sync_events st) (log st) (playlists st) (providers st) (forwarded st).

(** [signal_event(EVENT_MUSIC_SYNC_STATUS, running_sync_jobs)]: the payload
    is the list of running jobs as it is when the event is signalled. *)
Definition signal_sync_status (st : State) : State :=
  mkState (running_sync_jobs st) (sync_events st ++ [running_sync_jobs st])
          (log st) (playlists st) (providers st) (forwarded st).

Definition logger (line : string) (st : State) : State :=
  mkState (running_sync_jobs st) (sync_events st) (log st ++ [line])
          (playlists st) (providers st) (forwarded st).

(** ** The decorator [sync_task] *)

(** The loop that looks for a running job with this provider id and
    description. *)
Definition already_running (desc prov_id : string) (st : State) : bool :=
  existsb (fun j => bool_decide (fst j = prov_id) && bool_decide (snd j = desc))
          (running_sync_jobs st).

(** [list.remove(x)]: drops the first element equal to [x]; [None] stands
    for the [ValueError] of a list without [x]. *)
Fixpoint list_remove (x : sync_job) (l : list sync_job) : option (list sync_job) :=
  match l with
  | [] => None
  | y :: l' =>
      if bool_decide (y = x) then Some l'
      else option_map (cons y) (list_remove x l')
  end.

(** From the append of the job to the first event. *)
Definition sync_enter (desc prov_id : string) (st : State) : State :=
  signal_sync_status
    (set_running_sync_jobs (running_sync_jobs st ++ [(prov_id, desc)]) st).

(** From the return of the wrapped function to the last event. *)
Definition sync_exit (desc prov_id : string) : M unit :=
  fun st =>
    let st := logger ("Finished syncing " +:+ desc +:+ " for provider " +:+ prov_id) st in
    match list_remove (prov_id, desc) (running_sync_jobs st) with
    | Some jobs => (Return tt, signal_sync_status (set_running_sync_jobs jobs st))
    | None => (Raise ValueError, st)
    end.

(** [sync_task(desc)(func)], called on the manager with [prov_id]. *)
Definition wrapped (desc : string) (func : string -> M unit) (prov_id : string)
    : M unit :=
  fun st =>
    if already_running desc prov_id st then
      (Return tt,
       logger ("Syncjob " +:+ desc +:+ " for provider " +:+ prov_id
               +:+ " is already running!") st)
    else
      (let* _ := func prov_id in sync_exit desc prov_id) (sync_enter desc prov_id st).

(** ** Sync jobs that interleave

    A task is one call of a wrapped sync function.  It runs without
    suspension from its start to the append of its tag (or to its early
    return); it is suspended while the event is signalled and the wrapped
    function runs; and it runs without suspension from the return of the
    wrapped function to its end. *)
Inductive phase := Pending | Running | Finished.

#[global] Instance phase_eq_dec : EqDecision phase.
Proof. solve_decision. Defined.

Record task := mkTask {
  task_prov : string;
  task_desc : string;
  task_phase : phase }.

Definition set_phase (t : task) (p : phase) : task :=
  mkTask (task_prov t) (task_desc t) p.

Definition system : Type := list task * State.

(** What the rest of the program, the bodies of the wrapped functions
    included, may do between two steps of the tasks: anything but touch
    [running_sync_jobs]. *)
Definition environment_step (st st' : State) : Prop :=
  running_sync_jobs st' = running_sync_jobs st.

Inductive step : system -> system -> Prop :=
  | step_dropped ts1 t ts2 st :
      task_phase t = Pending ->
      already_running (task_desc t) (task_prov t) st = true ->
      step (ts1 ++ t :: ts2, st)
           (ts1 ++ set_phase t Finished :: ts2,
            logger ("Syncjob " +:+ task_desc t +:+ " for provider " +:+ task_prov t
                    +:+ " is already running!") st)
  | step_enter ts1 t ts2 st :
      task_phase t = Pending ->
      already_running (task_desc t) (task_prov t) st = false ->
      step (ts1 ++ t :: ts2, st)
           (ts1 ++ set_phase t Running :: ts2,
            sync_enter (task_desc t) (task_prov t) st)
  | step_exit ts1 t ts2 st st' :
      task_phase t = Running ->
      sync_exit (task_desc t) (task_prov t) st = (Return tt, st') ->
      step (ts1 ++ t :: ts2, st) (ts1 ++ set_phase t Finished :: ts2, st')
  | step_environment ts st st' :
      environment_step st st' ->
      step (ts, st) (ts, st').

Inductive reachable : system -> Prop :=
  | reachable_init ts st :
      Forall (fun t => task_phase t = Pending) ts ->
      running_sync_jobs st = [] ->
      reachable (ts, st)
  | reachable_step s s' :
      reachable s -> step s s' -> reachable s'.

(** The tasks that are running with a given tag. *)
Definition running_with (tag : sync_job) (ts : list task) : list task :=
  List.filter
    (fun t => bool_decide (task_phase t = Running)
              && bool_decide ((task_prov t, task_desc t) = tag)) ts.

(** ** Playlist edits *)

(** [self.playlist(db_playlist_id, "database")]: the playlist getter
    ([async_get_playlist]) with the provider ["database"] reads the playlist
    table; [None] when there is no such row. *)
Definition get_db_playlist (db_playlist_id : string) (st : State) : option Playlist :=
  playlists st !! db_playlist_id.

Definition set_checksum (value : string) (p : Playlist) : Playlist :=
  mkPlaylist (playlist_item_id p) (playlist_provider_ids p) (Some value) (is_editable p).

(** [database.async_update_playlist(item_id, "checksum", value)] *)
Definition async_update_playlist_checksum (id value : string) (st : State) : State :=
  mkState (running_sync_jobs st) (sync_events st) (log st)
          (alter (set_checksum value) id (playlists st)) (providers st)
          (forwarded st).

Definition forward (op : ProviderOp) (st : State) : State :=
  mkState (running_sync_jobs st) (sync_events st) (log st) (playlists st)
          (providers st) (forwarded st ++ [op]).

(** [sorted(provider_ids, key=itemgetter("quality"), reverse=True)]: a
    stable sort, highest quality first; versions of equal quality keep their
    order. *)
Fixpoint insert_by_quality (x : MediaItemProviderId) (l : list MediaItemProviderId)
    : list MediaItemProviderId :=
  match l with
  | [] => [x]
  | y :: l' =>
      if quality y <=? quality x then x :: y :: l'
      else y :: insert_by_quality x l'
  end.

Definition sorted_by_quality (l : list MediaItemProviderId) : list MediaItemProviderId :=
  List.fold_right insert_by_quality [] l.

(** The loop over the sorted versions of one track: the id that is added
    for it, if any. *)
Fixpoint pick_version (playlist_provider : string)
    (versions : list MediaItemProviderId) : option string :=
  match versions with
  | [] => None
  | track_version :: rest =>
      if bool_decide (provider track_version = playlist_provider) then
        Some (item_id track_version)
      else if bool_decide (playlist_provider = "file"%string) then
        Some (provider track_version +:+ "://" +:+ item_id track_version)%string
      else pick_version playlist_provider rest
  end.

Definition cur_playlist_track_ids (items : list Track) : list string :=
  flat_map (fun item => track_item_id item
                        :: List.map item_id (track_provider_ids item)) items.

Definition track_ids_to_add (playlist_provider : string) (cur : list string)
    (tracks : list Track) : list string :=
  flat_map
    (fun track =>
       let already_exists :=
         bool_decide (track_item_id track ∈ cur)
         || existsb (fun track_prov => bool_decide (item_id track_prov ∈ cur))
                    (track_provider_ids track) in
       if already_exists then []
       else match pick_version playlist_provider
                    (sorted_by_quality (track_provider_ids track)) with
            | Some id => [id]
            | None => []
            end)
    tracks.

Definition track_ids_to_remove (prov_playlist_id : string) (tracks : list Track)
    : list string :=
  flat_map
    (fun track =>
       List.map item_id
         (List.filter (fun tp => bool_decide (provider tp = prov_playlist_id))
                      (track_provider_ids track)))
    tracks.

(** [async_add_playlist_tracks]; [now] is [str(time.time())].  The value
    returned is [Some b] for a boolean and [None] for Python's [None]. *)
Definition async_add_playlist_tracks (db_playlist_id : string)
    (tracks : list Track) (now : string) : M (option bool) :=
  fun st =>
    match get_db_playlist db_playlist_id st with
    | None => (Return (Some false), st)
    | Some playlist =>
        if negb (is_editable playlist) then (Return (Some false), st)
        else
          match playlist_provider_ids playlist with
          | [] => (Raise IndexError, st)
          | playlist_prov :: _ =>
              match providers st !! provider playlist_prov with
              | None => (Raise KeyError, st)
              | Some prov =>
                  let cur :=
                    cur_playlist_track_ids
                      (playlist_tracks prov (item_id playlist_prov)) in
                  let ids := track_ids_to_add (provider playlist_prov) cur tracks in
                  match ids with
                  | [] => (Return (Some false), st)
                  | _ :: _ =>
                      let st := async_update_playlist_checksum
                                  (playlist_item_id playlist) now st in
                      (Return (Some (add_playlist_tracks_result prov
                                       (item_id playlist_prov) ids)),
                       forward (AddPlaylistTracks (provider playlist_prov)
                                  (item_id playlist_prov) ids) st)
                  end
              end
          end
    end.

(** [async_remove_playlist_tracks] *)
Definition async_remove_playlist_tracks (db_playlist_id : string)
    (tracks : list Track) (now : string) : M (option bool) :=
  fun st =>
    match get_db_playlist db_playlist_id st with
    | None => (Return (Some false), st)
    | Some playlist =>
        if negb (is_editable playlist) then (Return (Some false), st)
        else
          match playlist_provider_ids playlist with
          | [] => (Raise IndexError, st)
          | prov_playlist :: _ =>
              let ids := track_ids_to_remove (provider prov_playlist) tracks in
              match ids with
              | [] => (Return None, st)
              | _ :: _ =>
                  let st := async_update_playlist_checksum
                              (playlist_item_id playlist) now st in
                  match providers st !! provider prov_playlist with
                  | None => (Raise KeyError, st)
                  | Some prov =>
                      (Return (Some (remove_playlist_tracks_result prov
                                       (item_id prov_playlist) ids)),
                       forward (RemovePlaylistTracks (provider prov_playlist)
                                  (item_id prov_playlist) ids) st)
                  end
              end
          end
    end.

End MusicManager.

(** * player_manager.py *)

Module PlayerManager.

Local Open Scope Qc_scope.

(** A volume that is a Python [int] or [float]: a rational in canonical
    form. *)
Definition Qc_of_Z (z : Z) : Qc := Q2Qc (inject_Z z).

Inductive error := KeyError | AttributeError.

(** How a command coroutine ends; [OutOfFuel] is a model artefact: the
    recursion over group children was cut off. *)
Inductive outcome := Done | Raised (e : error) | OutOfFuel.

(** ** Players *)

Record Player := mkPlayer {
  player_id : string;
  provider_id : string;
  powered : bool;
  available : bool;
  volume_level : Qc;
  is_group_player : bool;
  group_childs : list string }.

(** ** Media items and the queue *)

(** [MediaType] of models/media_types.py. *)
Inductive MediaType := Artist | Album | Track | Playlist | Radio.

Record MediaItem := mkMediaItem {
  media_type : MediaType;
  item_id : string;
  provider : string;
  name : string }.

(** [QueueOption] of models/player_queue.py, with the four members the
    docstring of [async_play_media] lists. *)
Inductive QueueOption := Play | Replace | Next | Add.

#[global] Instance QueueOption_eq_dec : EqDecision QueueOption.
Proof. solve_decision. Defined.

(** [QueueItem(track)]: the track with a queue item id and a stream uri. *)
Record QueueItem := mkQueueItem {
  track : MediaItem;
  queue_item_id : string;
  uri : string }.

(** Modelled from the spec: models/player_queue.py is not among the sources.
    A player queue is an ordered list of items and a current index;
    [load(items)] replaces the queue, [insert(items, offset_from_cur)] puts
    the items at the given offset from the current index (0 = play now, 1 =
    next), [append(items)] puts them at the end. *)
Record PlayerQueue := mkPlayerQueue {
  items : list QueueItem;
  cur_index : nat }.

Definition async_load (queue_items : list QueueItem) (q : PlayerQueue) : PlayerQueue :=
  mkPlayerQueue queue_items 0.

Definition async_insert (queue_items : list QueueItem) (offset : nat)
    (q : PlayerQueue) : PlayerQueue :=
  mkPlayerQueue
    (firstn (cur_index q + offset) (items q) ++ queue_items
     ++ skipn (cur_index q + offset) (items q))
    (cur_index q).

Definition async_append (queue_items : list QueueItem) (q : PlayerQueue) : PlayerQueue :=
  mkPlayerQueue (items q ++ queue_items) (cur_index q).

(** A call that [async_play_media] makes on the queue of the player. *)
Inductive QueueCall :=
  | Load (queue_items : list QueueItem)
  | Insert (queue_items : list QueueItem) (offset : nat)
  | Append (queue_items : list QueueItem).

Definition run_queue_call (c : QueueCall) (q : PlayerQueue) : PlayerQueue :=
  match c with
  | Load l => async_load l q
  | Insert l offset => async_insert l offset q
  | Append l => async_append l q
  end.

(** ** The manager *)

(** The manager and what it reaches through [self.mass]: the players, their
    queues, the ids of the registered player controls, the ids of the
    providers [mass.get_provider] knows, and for each player id the volume
    control of its settings ([None] when the setting is empty). *)
Record Manager := mkManager {
  _players : gmap string Player;
  _player_queues : gmap string PlayerQueue;
  _controls : gset string;
  provider_registry : gset string;
  conf_volume_control : string -> option string }.

(** What a volume command sends out. *)
Inductive command :=
  | ProviderVolumeSet (prov : string) (player : string) (volume : Z)
      (* player_prov.async_cmd_volume_set(player_id, volume) *)
  | ControlSetState (control : string) (volume : Z).
      (* mass.add_job(control.set_state, volume) *)

(** A loop whose body sends commands and may raise: it stops at the first
    iteration that does not end normally. *)
Fixpoint for_each {A} (body : A -> list command * outcome) (l : list A)
    : list command * outcome :=
  match l with
  | [] => ([], Done)
  | x :: l' =>
      match body x with
      | (sent, Done) =>
          let (sent', o) := for_each body l' in (sent ++ sent', o)
      | r => r
      end
  end.

Definition clamp_volume (volume_level : Z) : Z :=
  if volume_level <? 0 then 0
  else if 100 <? volume_level then 100
  else volume_level.

(** The factor applied to the volume of each child of a group. *)
Definition volume_dif_percent (cur_volume : Qc) (new_volume : Z) : Qc :=
  let volume_dif := Qc_of_Z new_volume - cur_volume in
  if Qeq_bool cur_volume 0 then 1 + Qc_of_Z new_volume / Qc_of_Z 100
  else volume_dif / cur_volume.

(** The children of a group that are known, available and powered, each
    with the id it has in [group_childs]. *)
Definition active_childs (pm : Manager) (player : Player) : list (string * Player) :=
  omap (fun child_player_id =>
          match _players pm !! child_player_id with
          | Some child_player =>
              if available child_player && powered child_player
              then Some (child_player_id, child_player) else None
          | None => None
          end)
       (group_childs player).

(** The calls the group branch makes: for each active child, its id and
    [new_child_volume]. *)
Definition child_volume_calls (pm : Manager) (player : Player) (new_volume : Z)
    : list (string * Qc) :=
  List.map
    (fun child =>
       let cur_child_volume := volume_level (snd child) in
       (fst child,
        cur_child_volume
        + cur_child_volume * volume_dif_percent (volume_level player) new_volume))
    (active_childs pm player).

Section Commands.
(** [try_parse_int] of utils.py. *)
Variable try_parse_int : Qc -> Z.

(** [player_prov.async_cmd_volume_set(player_id, volume)]; the provider is
    [None] when [mass.get_provider] does not know the provider id. *)
Definition provider_volume_set (pm : Manager) (player : Player)
    (player_id : string) (volume : Z) : list command * outcome :=
  if bool_decide (provider_id player ∈ provider_registry pm)
  then ([ProviderVolumeSet (provider_id player) player_id volume], Done)
  else ([], Raised AttributeError).

(** [async_cmd_volume_set]: the commands sent, in order, and how the call
    ends. *)
Fixpoint async_cmd_volume_set (fuel : nat) (pm : Manager) (player_id : string)
    (volume_level : Qc) : list command * outcome :=
  match fuel with
  | O => ([], OutOfFuel)
  | S fuel =>
      match _players pm !! player_id with
      | None => ([], Raised AttributeError)        (* player is None *)
      | Some player =>
          if negb (powered player) then ([], Done)
          else
            let volume_level := clamp_volume (try_parse_int volume_level) in
            match conf_volume_control pm (PlayerManager.player_id player) with
            | Some control =>
                if bool_decide (control ∈ _controls pm) then
                  match provider_volume_set pm player player_id 100 with
                  | (sent, o) => (ControlSetState control volume_level :: sent, o)
                  end
                else ([], Done)
            | None =>
                if is_group_player player then
                  for_each
                    (fun call => async_cmd_volume_set fuel pm (fst call) (snd call))
                    (child_volume_calls pm player volume_level)
                else provider_volume_set pm player player_id volume_level
            end
      end
  end.
End Commands.

Section PlayMedia.
(** The listings of the music manager: top tracks of an artist, tracks of
    an album, tracks of a playlist, each by item id and provider. *)
Variable artist_toptracks album_tracks playlist_tracks :
  string -> string -> list MediaItem.
(** The queue item ids handed out, in order ([uuid4]). *)
Variable uuid : nat -> string.
(** [mass.web.local_ip] and [mass.web.http_port], as text. *)
Variable local_ip http_port : string.

(** The tracks one media item stands for. *)
Definition tracks_of (media_item : MediaItem) : list MediaItem :=
  match media_type media_item with
  | Artist => artist_toptracks (item_id media_item) (provider media_item)
  | Album => album_tracks (item_id media_item) (provider media_item)
  | Playlist => playlist_tracks (item_id media_item) (provider media_item)
  | _ => [media_item]                               (* single track *)
  end.

Definition expand (media_items : list MediaItem) : list MediaItem :=
  flat_map tracks_of media_items.

(** The queue items built for the expanded tracks; the [n]-th item made
    gets the id [uuid n]. *)
Definition make_queue_item (player_id : string) (n : nat) (t : MediaItem) : QueueItem :=
  mkQueueItem t (uuid n)
    ("http://" +:+ local_ip +:+ ":" +:+ http_port +:+ "/stream/" +:+ player_id
     +:+ "/" +:+ uuid n)%string.

Definition queue_items_of (player_id : string) (media_items : list MediaItem)
    : list QueueItem :=
  imap (make_queue_item player_id) (expand media_items).

(** The queue call [async_play_media] chooses. *)
Definition queue_call (queue_items : list QueueItem) (queue_opt : QueueOption)
    : QueueCall :=
  if bool_decide (queue_opt = Replace)
     || ((10 <? length queue_items)%nat
         && bool_decide (queue_opt = Play \/ queue_opt = Next))
  then Load queue_items
  else match queue_opt with
       | Next => Insert queue_items 1
       | Play => Insert queue_items 0
       | Add => Append queue_items
       | Replace => Load queue_items
       end.

(** [async_play_media]: the call made on the queue of the player (if
    any), the manager afterwards, and how the coroutine ends. *)
Definition async_play_media (pm : Manager) (player_id : string)
    (media_items : list MediaItem) (queue_opt : QueueOption)
    : option QueueCall * Manager * outcome :=
  match _players pm !! player_id with
  | None => (None, pm, Raised KeyError)
  | Some player =>
      let queue_items := queue_items_of player_id media_items in
      match _player_queues pm !! player_id with
      | None => (None, pm, Raised AttributeError)
      | Some player_queue =>
          let call := queue_call queue_items queue_opt in
          (Some call,
           mkManager (_players pm)
                     (<[player_id := run_queue_call call player_queue]>
                        (_player_queues pm))
                     (_controls pm) (provider_registry pm)
                     (conf_volume_control pm),
           Done)
      end
  end.
End PlayMedia.

(** ** Volume steps *)

(** [x < y] on volumes. *)
Definition Qc_ltb (x y : Qc) : bool := negb (Qle_bool y x).

Section VolumeSteps.
Variable try_parse_int : Qc -> Z.

(** [async_cmd_volume_up]: [self._players[player_id]] raises [KeyError]
    for a player that is not registered. *)
Definition async_cmd_volume_up (fuel : nat) (pm : Manager) (player_id : string)
    : list command * outcome :=
  match _players pm !! player_id with
  | None => ([], Raised KeyError)
  | Some player =>
      let new_level := volume_level player + 1 in
      let new_level := if Qc_ltb (Qc_of_Z 100) new_level then Qc_of_Z 100
                       else new_level in
      async_cmd_volume_set try_parse_int fuel pm player_id new_level
  end.

(** [async_cmd_volume_down] *)
Definition async_cmd_volume_down (fuel : nat) (pm : Manager) (player_id : string)
    : list command * outcome :=
  match _players pm !! player_id with
  | None => ([], Raised KeyError)
  | Some player =>
      let new_level := volume_level player - 1 in
      let new_level := if Qc_ltb new_level 0 then 0 else new_level in
      async_cmd_volume_set try_parse_int fuel pm player_id new_level
  end.
End VolumeSteps.

(** ** Power off *)

(** What [async_cmd_power_off] sends out. *)
Inductive power_command :=
  | ProviderPowerOff (prov : string) (player : string)
      (* player_prov.async_cmd_power_off(player_id) *)
  | ControlPowerState (control : string) (state : bool).
      (* mass.add_job(control.set_state, False) *)

(** The loop over the children of a group: it stops at the first child
    whose call does not end normally. *)
Fixpoint for_each_child (body : string -> list power_command * outcome)
    (l : list string) : list power_command * outcome :=
  match l with
  | [] => ([], Done)
  | x :: l' =>
      match body x with
      | (sent, Done) =>
          let (sent', o) := for_each_child body l' in (sent ++ sent', o)
      | r => r
      end
  end.

Section Power.
(** The power control of the settings of a player, by player id ([None]
    when the setting is empty). *)
Variable conf_power_control : string -> option string.

(** What is sent for the player itself: the command to its provider, and
    the new state to its power control when one is set and registered. *)
Definition power_off_own (pm : Manager) (player : Player) (player_id : string)
    : list power_command :=
  ProviderPowerOff (provider_id player) player_id
  :: match conf_power_control (PlayerManager.player_id player) with
     | Some control =>
         if bool_decide (control ∈ _controls pm)
         then [ControlPowerState control false] else []
     | None => []
     end.

(** [async_cmd_power_off]: the commands sent, in order, and how the call
    ends. *)
Fixpoint async_cmd_power_off (fuel : nat) (pm : Manager) (player_id : string)
    : list power_command * outcome :=
  match fuel with
  | O => ([], OutOfFuel)
  | S fuel =>
      match _players pm !! player_id with
      | None => ([], Raised KeyError)
      | Some player =>
          if bool_decide (provider_id player ∈ provider_registry pm) then
            let sent := power_off_own pm player player_id in
            if is_group_player player then
              let (sent', o) :=
                for_each_child (async_cmd_power_off fuel pm) (group_childs player) in
              (sent ++ sent', o)
            else (sent, Done)
          else ([], Raised AttributeError)                (* provider is None *)
      end
  end.
End Power.

(** ** Calculated volume *)

(** The loop that adds up the volumes of the active children. *)
Definition sum_volumes (childs : list (string * Player)) : Qc :=
  fold_left (fun group_volume child => group_volume + volume_level (snd child))
            childs 0.

Section PlayerState.
(** [control.state] of a registered player control, by control id. *)
Variable control_state : string -> Qc.

(** [__get_player_volume_level]; [player] is the player as its provider
    reports it, the children are read from the manager. *)
Definition get_player_volume_level (pm : Manager) (player : Player) : Qc :=
  if negb (available player) then 0
  else
    let control :=
      match conf_volume_control pm (player_id player) with
      | Some control =>
          if bool_decide (control ∈ _controls pm) then Some control else None
      | None => None
      end in
    match control with
    | Some control => control_state control
    | None =>
        if is_group_player player then
          let childs := active_childs pm player in
          let group_volume := sum_volumes childs in
          let active_players := length childs in
          if (active_players =? 0)%nat then group_volume
          else group_volume / Qc_of_Z (Z.of_nat active_players)
        else volume_level player
    end.
End PlayerState.

(** ** Polling *)

Definition POLL_INTERVAL : Z := 10.

(** A player as its provider reports it, with what [poll_task] reads. *)
Record PolledPlayer := mkPolledPlayer {
  polled_player_id : string;
  should_poll : bool;
  playing : bool }.             (* player.state == PlayerState.Playing *)

(** One run of [poll_task]: the ids of the players handed to
    [async_update_player], in order, and the new value of [_poll_ticks]. *)
Definition poll_task (_org_players : list PolledPlayer) (_poll_ticks : Z)
    : list string * Z :=
  (List.map polled_player_id
     (List.filter (fun player =>
                     should_poll player
                     && ((POLL_INTERVAL <=? _poll_ticks)%Z || playing player))
                  _org_players),
   if (POLL_INTERVAL <=? _poll_ticks)%Z then 0%Z else (_poll_ticks + 1)%Z).

(** [n] runs of [poll_task], one per second: what each run updates, and
    the ticks at the end. *)
Fixpoint poll_runs (n : nat) (_org_players : list PolledPlayer) (_poll_ticks : Z)
    : list (list string) * Z :=
  match n with
  | O => ([], _poll_ticks)
  | S n =>
      let (updated, ticks) := poll_task _org_players _poll_ticks in
      let (rest, final) := poll_runs n _org_players ticks in
      (updated :: rest, final)
  end.

End PlayerManager.
(** * Facts about the media model *)

Module MediaItemsFacts.
Import MediaItems.

(** *** Facts on [py_int] used for the quality score *)

Lemma py_int_div (a : Z) (p : positive) :
  py_int (inject_Z a / inject_Z (Z.pos p)) = a ÷ Z.pos p.
Proof.
  unfold py_int, Qdiv, Qmult, Qinv, inject_Z; simpl.
  now rewrite Z.mul_1_r.
Qed.

Lemma py_int_div_succ (a : Z) (p : positive) :
  py_int (inject_Z a / inject_Z (Z.pos p) + 1) = (a + Z.pos p) ÷ Z.pos p.
Proof.
  unfold py_int, Qdiv, Qmult, Qinv, Qplus, inject_Z; simpl.
  rewrite !Z.mul_1_r, Pos.mul_1_r. reflexivity.
Qed.

Lemma py_int_inject (a : Z) : py_int (inject_Z a) = a.
Proof. unfold py_int; simpl. apply Z.quot_1_r. Qed.

Lemma quality_lossless is_lossless (m : ProviderMapping) :
  is_lossless (content_type m) = true ->
  quality is_lossless m = sample_rate m ÷ 1000 + bit_depth m.
Proof.
  intros Hl. unfold quality. rewrite Hl.
  now rewrite (py_int_div (sample_rate m) 1000).
Qed.

Lemma quality_lossy is_lossless (m : ProviderMapping) :
  is_lossless (content_type m) = false ->
  quality is_lossless m
  = (bit_rate m + 100 * codec_bonus (content_type m)) ÷ 100.
Proof.
  intros Hl. unfold quality, codec_bonus. rewrite Hl.
  destruct (bool_decide _).
  - rewrite (py_int_div_succ (bit_rate m) 100). f_equal; lia.
  - rewrite (py_int_div (bit_rate m) 100). f_equal; lia.
Qed.

(** Sample mappings used to exercise the definitions. *)
Definition lossless_only_flac (c : ContentType) : bool := bool_decide (c = FLAC).

Definition sample_mapping (ct : ContentType) (sr bd br : Z) : ProviderMapping :=
  mkProviderMapping "abc" (PT_OTHER "qobuz") "qobuz_1" true ct sr bd br None None.

Example quality_flac_96_24 :
  quality lossless_only_flac (sample_mapping FLAC 96000 24 320) = 120.
Proof. reflexivity. Qed.

Example quality_flac_44_16 :
  quality lossless_only_flac (sample_mapping FLAC 44100 16 320) = 60.
Proof. reflexivity. Qed.

Example quality_ogg_320 :
  quality lossless_only_flac (sample_mapping OGG 44100 16 320) = 4.
Proof. reflexivity. Qed.

Example quality_mp3_320 :
  quality lossless_only_flac (sample_mapping MP3 44100 16 320) = 3.
Proof. reflexivity. Qed.



(** *** The merge of metadata, field by field *)

(** A field that is neither a list nor a set, and not one of the three
    always-overwritable fields. *)
Definition scalar_rule {A} (allow : bool) (cur new res : option A) : Prop :=
  (new = None -> res = cur) /\
  (new <> None -> cur = None \/ allow = true -> res = new) /\
  (new <> None -> cur <> None -> allow = false -> res = cur).

(** [checksum], [popularity], [last_refresh]. *)
Definition always_rule {A} (truthy : A -> bool) (allow : bool)
    (cur new res : option A) : Prop :=
  (new = None -> res = cur) /\
  (forall v, new = Some v ->
     cur = None \/ allow = true \/ truthy v = true -> res = new) /\
  (forall v, new = Some v ->
     cur <> None -> allow = false -> truthy v = false -> res = cur).

Definition list_rule {A} (merge : list A -> list A -> list A)
    (cur new res : option (list A)) : Prop :=
  (new = None -> res = cur) /\
  (forall c n, cur = Some c -> new = Some n -> res = Some (merge c n)) /\
  (cur = None -> res = new).

(** A set-valued field; the case of two non-null sets is not constrained. *)
Definition set_rule {A} (cur new res : option A) : Prop :=
  (new = None -> res = cur) /\
  (cur = None -> res = new).

Lemma update_scalar_rule {A} (truthy : A -> bool) allow cur new :
  scalar_rule allow cur new (update_scalar truthy allow cur new).
Proof.
  unfold scalar_rule, update_scalar, update_field, no_merge.
  destruct new as [n|], cur as [c|], allow; simpl;
    rewrite ?andb_false_r; repeat split; try congruence; intuition congruence.
Qed.

Lemma update_always_rule {A} (truthy : A -> bool) allow cur new :
  always_rule truthy allow cur new (update_always truthy allow cur new).
Proof.
  unfold always_rule, update_always, update_field, no_merge.
  destruct new as [n|], cur as [c|], allow; simpl;
    rewrite ?andb_true_r; repeat split; try congruence;
    intros v [= <-]; try congruence.
  - intros [?|[?|Ht]]; try congruence. now rewrite Ht.
  - intros _ _ Ht. now rewrite Ht.
Qed.

Lemma update_list_rule merge allow cur new :
  list_rule merge cur new (update_list merge allow cur new).
Proof.
  unfold list_rule, update_list, update_field.
  destruct new, cur; simpl; repeat split; congruence.
Qed.

Lemma update_set_rule `{Countable A} allow (cur new : option (gset A)) :
  set_rule cur new (update_set allow cur new).
Proof.
  unfold set_rule, update_set, update_field.
  destruct new, cur; simpl; repeat split; congruence.
Qed.

(** A concrete [merge_lists] to run [update] on sample values: the items
    of the base list that are not in the new list, then the new list. *)
Definition sample_merge_lists (base new : list MediaItemImage) :=
  List.filter (fun x => negb (bool_decide (x ∈ new))) base ++ new.

Definition with_popularity (p : Z) : MediaItemMetadata :=
  mkMediaItemMetadata None None None None None None None None None
                      None None None None None None (Some p) None None.

Definition with_genres (g : gset string) : MediaItemMetadata :=
  mkMediaItemMetadata None None None None (Some g) None None None None
                      None None None None None None None None None.

Example update_popularity_nonzero :
  popularity (update sample_merge_lists (with_popularity 5) (with_popularity 7) false)
  = Some 7.
Proof. reflexivity. Qed.

(** The assignment [new_val = cur_val.update(new_val)] stores the return
    value of [set.update], which is [None]: two non-null sets leave the field
    null instead of holding their union. *)
Example update_two_sets_gives_null :
  genres (update sample_merge_lists (with_genres {["rock"%string]})
                                    (with_genres {["jazz"%string]}) false)
  = None.
Proof. reflexivity. Qed.

(** C4, as stated, fails: a non-null new [popularity] of 0 does not overwrite
    a current non-null value when [allow_overwrite] is false. *)
Lemma update_popularity_zero_not_overwritten :
  popularity (with_popularity 0) = Some 0 /\
  popularity (update sample_merge_lists (with_popularity 5) (with_popularity 0) false)
  = Some 5.
Proof. split; reflexivity. Qed.

(** C4 (amended). [update] merges field by field.  A null new value leaves
    the field unchanged.  A list field with a current list becomes
    [merge_lists] of the current and the new list.  A field whose current
    value is null takes the new value.  Any other field that is not a set
    keeps its current value unless [allow_overwrite] is true; and [checksum],
    [popularity] and [last_refresh] are overwritten as well when the new
    value is non-null and truthy (a non-zero number, a non-empty string).
    Nothing is said about a set field when both sets are non-null. *)
Theorem update_merges_field_by_field
    (merge_lists : list MediaItemImage -> list MediaItemImage -> list MediaItemImage)
    (self new_values : MediaItemMetadata) (allow_overwrite : bool) :
  let r := update merge_lists self new_values allow_overwrite in
  let scalar {A} (f : MediaItemMetadata -> option A) :=
    scalar_rule allow_overwrite (f self) (f new_values) (f r) in
  let always {A} (truthy : A -> bool) (f : MediaItemMetadata -> option A) :=
    always_rule truthy allow_overwrite (f self) (f new_values) (f r) in
  let set {A} (f : MediaItemMetadata -> option A) :=
    set_rule (f self) (f new_values) (f r) in
  scalar description /\ scalar review /\ scalar explicit /\
  list_rule merge_lists (images self) (images new_values) (images r) /\
  set genres /\
  scalar mood /\ scalar style /\ scalar copyright /\ scalar lyrics /\
  scalar ean /\ scalar label /\
  set links /\ set performers /\
  scalar preview /\ scalar replaygain /\
  always truthy_int popularity /\ always truthy_int last_refresh /\
  always truthy_str checksum.
Proof.
  cbv zeta. unfold update; simpl.
  repeat match goal with |- _ /\ _ => split end;
    first [ apply update_scalar_rule | apply update_always_rule
          | apply update_list_rule | apply update_set_rule ].
Qed.

(** *** Provider mappings of a media item *)

(** At most one mapping per (provider instance id, item id). *)
Definition unique_keys (s : gset ProviderMapping) : Prop :=
  forall x y, x ∈ s -> y ∈ s -> mapping_key x = mapping_key y -> x = y.

Lemma mapping_key_eq (x y : ProviderMapping) :
  mapping_key x = mapping_key y <->
  item_id x = item_id y /\ provider_id x = provider_id y.
Proof. unfold mapping_key. split; [intros [= -> ->] | intros [-> ->]]; auto. Qed.

Lemma elem_of_add_provider_mapping self m x :
  x ∈ provider_mappings (add_provider_mapping self m) <->
  (x ∈ provider_mappings self /\ mapping_key x <> mapping_key m) \/ x = m.
Proof.
  unfold add_provider_mapping; simpl.
  rewrite elem_of_union, elem_of_filter, elem_of_singleton, mapping_key_eq.
  tauto.
Qed.

Lemma add_provider_mapping_replaces self m :
  m ∈ provider_mappings (add_provider_mapping self m) /\
  forall x, x ∈ provider_mappings (add_provider_mapping self m) ->
            mapping_key x = mapping_key m -> x = m.
Proof.
  split.
  - apply elem_of_add_provider_mapping; now right.
  - intros x Hx Hk. apply elem_of_add_provider_mapping in Hx.
    destruct Hx as [[_ Hne]|Hx]; [contradiction | exact Hx].
Qed.

Lemma add_provider_mapping_unique self m :
  unique_keys (provider_mappings self) ->
  unique_keys (provider_mappings (add_provider_mapping self m)).
Proof.
  intros Hu x y Hx Hy Hk.
  apply elem_of_add_provider_mapping in Hx, Hy.
  destruct Hx as [[Hx Hxm] | ->], Hy as [[Hy Hym] | ->]; try congruence.
  now apply Hu.
Qed.

Lemma add_provider_mappings_unique ms : forall self,
  unique_keys (provider_mappings self) ->
  unique_keys (provider_mappings (fold_left add_provider_mapping ms self)).
Proof.
  induction ms as [|m ms IH]; intros self Hu; simpl; [exact Hu|].
  apply IH. now apply add_provider_mapping_unique.
Qed.

Definition spotify_track (avail : bool) (pt : ProviderType) : ProviderMapping :=
  mkProviderMapping "t1" pt "spotify_1" avail OGG 44100 16 320 None None.

Definition bare_item : MediaItem :=
  mkMediaItem "1" PT_DATABASE "Come Together" ∅ empty_metadata false TRACK
              None None 0.

(** C5, as stated, fails: two mappings with the same provider instance id
    and item id are different values (dataclass equality compares every
    field), and the pair that is hashed holds the provider type, which two
    such mappings need not share. *)
Lemma equality_and_hash_not_by_instance_and_item :
  let a := spotify_track true (PT_OTHER "spotify") in
  let b := spotify_track false (PT_OTHER "spotify") in
  let c := spotify_track true PT_FILESYSTEM in
  mapping_key a = mapping_key b /\ ProviderMapping_eq a b = false /\
  mapping_key a = mapping_key c /\ hash_key a <> hash_key c.
Proof. repeat split; try reflexivity. discriminate. Qed.

(** C5 (amended). Two provider mappings are equal exactly when all their
    fields are equal, and the hash is a function of (provider type, item id).
    [add_provider_mapping m] replaces every mapping that has the provider
    instance id and item id of [m], so a set that holds at most one mapping
    per (provider instance id, item id), the empty set for one, still does
    after any sequence of [add_provider_mapping] calls. *)
Theorem add_provider_mapping_keeps_keys_unique :
  (forall a b, ProviderMapping_eq a b = true <-> a = b) /\
  (forall (H : Type) (hash : ProviderType * string -> H) a b,
     provider_type a = provider_type b -> item_id a = item_id b ->
     ProviderMapping_hash hash a = ProviderMapping_hash hash b) /\
  (forall self m,
     m ∈ provider_mappings (add_provider_mapping self m) /\
     forall x, x ∈ provider_mappings (add_provider_mapping self m) ->
               mapping_key x = mapping_key m -> x = m) /\
  (forall self ms,
     unique_keys (provider_mappings self) ->
     unique_keys (provider_mappings (fold_left add_provider_mapping ms self))).
Proof.
  split; [| split; [| split]].
  - intros a b. unfold ProviderMapping_eq. apply bool_decide_eq_true.
  - intros H hash a b Ht Hi. unfold ProviderMapping_hash, hash_key.
    now rewrite Ht, Hi.
  - apply add_provider_mapping_replaces.
  - intros self ms. apply add_provider_mappings_unique.
Qed.

Lemma add_provider_mapping_keeps_keys_unique_witness :
  unique_keys (provider_mappings
    (fold_left add_provider_mapping
       [spotify_track true (PT_OTHER "spotify");
        spotify_track false (PT_OTHER "spotify")] bare_item)).
Proof.
  destruct add_provider_mapping_keeps_keys_unique as (_ & _ & _ & Hu).
  apply Hu. intros x y Hx. simpl in Hx. exfalso. revert Hx. apply not_elem_of_empty.
Defined.

(** ** Further facts on the media model *)

(** *** The values of the isrc field *)

Fixpoint count_char (c : Ascii.ascii) (s : string) : nat :=
  match s with
  | EmptyString => 0
  | String a s' => (if bool_decide (a = c) then 1 else 0) + count_char c s'
  end.

Lemma split_not_nil sep s : split sep s <> [].
Proof.
  destruct s as [|c s]; simpl; [discriminate|].
  destruct (bool_decide (c = sep)); [discriminate|].
  destruct (split sep s); discriminate.
Qed.

Lemma concat_split sep s : String.concat (String sep EmptyString) (split sep s) = s.
Proof.
  induction s as [|c s IH]; simpl; [reflexivity|].
  pose proof (split_not_nil sep s) as Hne.
  destruct (bool_decide (c = sep)) eqn:E.
  - apply bool_decide_eq_true in E. subst c.
    destruct (split sep s) as [|p ps]; [contradiction|].
    simpl in *. now rewrite IH.
  - destruct (split sep s) as [|p ps]; [contradiction|].
    destruct ps as [|q qs]; simpl in *; now rewrite <- IH.
Qed.

Lemma split_parts_clean sep s : Forall (fun p => count_char sep p = 0%nat) (split sep s).
Proof.
  induction s as [|c s IH]; simpl; [repeat constructor|].
  destruct (bool_decide (c = sep)) eqn:E.
  - constructor; [reflexivity | exact IH].
  - destruct (split sep s) as [|p ps]; simpl.
    + repeat constructor. simpl. now rewrite E.
    + inversion IH as [|? ? Hp Hps]; subst. constructor; [|exact Hps].
      simpl. now rewrite E.
Qed.

Lemma length_split sep s : length (split sep s) = S (count_char sep s).
Proof.
  induction s as [|c s IH]; simpl; [reflexivity|].
  destruct (bool_decide (c = sep)); simpl.
  - now rewrite IH.
  - destruct (split sep s) as [|p ps]; simpl in *; [discriminate | exact IH].
Qed.

(** X1. [Track.isrcs] gives no value for a missing or empty isrc field.
    For any other field it gives one value more than the field has
    semicolons, no value contains a semicolon, and joining the values with
    semicolons gives the field back. *)
Theorem isrcs_splits_and_joins_back (s : string) :
  isrcs None = [] /\ isrcs (Some EmptyString) = [] /\
  (s <> EmptyString ->
   String.concat ";" (isrcs (Some s)) = s /\
   length (isrcs (Some s)) = S (count_char ";"%char s) /\
   Forall (fun p => count_char ";"%char p = 0%nat) (isrcs (Some s))).
Proof.
  split; [reflexivity|]. split; [reflexivity|].
  intros Hne. unfold isrcs. rewrite (bool_decide_eq_false_2 _ Hne).
  split; [apply concat_split|]. split; [apply length_split | apply split_parts_clean].
Qed.

Example isrcs_two_values :
  isrcs (Some "GBAYE0601498;GBAYE0601499") = ["GBAYE0601498"; "GBAYE0601499"]%string.
Proof. reflexivity. Qed.

Lemma isrcs_splits_and_joins_back_witness :
  String.concat ";" (isrcs (Some "GBAYE0601498;;X")) = "GBAYE0601498;;X"%string /\
  length (isrcs (Some "GBAYE0601498;;X")) = 3%nat.
Proof.
  destruct (isrcs_splits_and_joins_back "GBAYE0601498;;X") as (_ & _ & H).
  destruct H as (Hjoin & Hlen & _); [discriminate|].
  split; [exact Hjoin | exact Hlen].
Defined.

(** *** Availability *)

Lemma mi_available_spec self :
  mi_available self = true <->
  exists x, x ∈ provider_mappings self /\ available x = true.
Proof.
  unfold mi_available. rewrite existsb_exists. split.
  - intros (x & Hin & Ha). exists x. split; [|exact Ha].
    now apply elem_of_elements, list_elem_of_In.
  - intros (x & Hin & Ha). exists x. split; [|exact Ha].
    now apply list_elem_of_In, elem_of_elements.
Qed.

(** X2. After [add_provider_mapping(m)] the item is available exactly when
    [m] is available or a mapping with another (provider id, item id) that
    the item already had is available: the availability of a mapping that
    [m] replaces no longer counts.  An item without mappings is not
    available. *)
Theorem available_after_add_provider_mapping (self : MediaItem) (m : ProviderMapping) :
  (mi_available (add_provider_mapping self m) = true <->
   available m = true \/
   exists x, x ∈ provider_mappings self /\ mapping_key x <> mapping_key m
             /\ available x = true) /\
  (provider_mappings self = ∅ -> mi_available self = false).
Proof.
  split.
  - rewrite mi_available_spec. split.
    + intros (x & Hin & Ha). apply elem_of_add_provider_mapping in Hin.
      destruct Hin as [[Hin Hk] | ->]; [right; eauto | now left].
    + intros [Ha | (x & Hin & Hk & Ha)].
      * exists m. split; [|exact Ha]. apply elem_of_add_provider_mapping. now right.
      * exists x. split; [|exact Ha]. apply elem_of_add_provider_mapping. now left.
  - intros He. unfold mi_available. rewrite He. reflexivity.
Qed.

Example replaced_mapping_makes_unavailable :
  let item := add_provider_mapping bare_item (spotify_track true (PT_OTHER "spotify")) in
  mi_available item = true /\
  mi_available (add_provider_mapping item (spotify_track false (PT_OTHER "spotify")))
  = false.
Proof. vm_compute. split; reflexivity. Qed.

Lemma available_after_add_provider_mapping_witness :
  mi_available (add_provider_mapping bare_item (spotify_track true PT_FILESYSTEM)) = true /\
  mi_available bare_item = false.
Proof.
  destruct (available_after_add_provider_mapping bare_item
              (spotify_track true PT_FILESYSTEM)) as (Hadd & Hempty).
  split.
  - apply Hadd. now left.
  - apply Hempty. reflexivity.
Defined.

(** X3. [add_provider_mapping] is idempotent, and adding [m] makes the set
    grow by at most one mapping. *)
Theorem add_provider_mapping_idempotent (self : MediaItem) (m : ProviderMapping) :
  add_provider_mapping (add_provider_mapping self m) m = add_provider_mapping self m /\
  (size (provider_mappings (add_provider_mapping self m))
   <= S (size (provider_mappings self)))%nat.
Proof.
  split.
  - unfold add_provider_mapping at 1 3. simpl. unfold set_provider_mappings; simpl.
    f_equal. apply set_eq. intros x.
    rewrite !elem_of_union, !elem_of_filter, !elem_of_union, !elem_of_filter,
      !elem_of_singleton.
    split.
    + intros [[Hk [[_ Hin] | ->]] | ->]; [left; now split | | now right].
      exfalso. apply Hk. now split.
    + intros [[Hk Hin] | ->]; [left; split; [exact Hk | left; now split] | now right].
  - unfold add_provider_mapping; simpl. rewrite size_union_alt.
    assert (Hf : (size (filter (fun x => ~ (item_id x = item_id m
                                           /\ provider_id x = provider_id m))
                              (provider_mappings self))
                  <= size (provider_mappings self))%nat).
    { apply subseteq_size. intros x Hx. apply elem_of_filter in Hx. tauto. }
    assert (Hd : (size (({[ m ]} : gset ProviderMapping)
                        ∖ filter (fun x => ~ (item_id x = item_id m
                                              /\ provider_id x = provider_id m))
                                 (provider_mappings self)) <= 1)%nat).
    { rewrite <- (size_singleton (C := gset ProviderMapping) m).
      apply subseteq_size. intros x Hx. apply elem_of_difference in Hx. tauto. }
    lia.
Qed.

(** *** Lossless against lossy *)



(** *** Merging metadata *)

(** X5. Updating with metadata that has no values changes nothing, and an
    update never turns a value of a field that is not a set into null. *)
Theorem update_keeps_values
    (merge_lists : list MediaItemImage -> list MediaItemImage -> list MediaItemImage)
    (self new_values : MediaItemMetadata) (allow_overwrite : bool) :
  update merge_lists self empty_metadata allow_overwrite = self /\
  let r := update merge_lists self new_values allow_overwrite in
  let kept {A} (f : MediaItemMetadata -> option A) := f self <> None -> f r <> None in
  kept description /\ kept review /\ kept explicit /\ kept images /\ kept mood /\
  kept style /\ kept copyright /\ kept lyrics /\ kept ean /\ kept label /\
  kept preview /\ kept replaygain /\ kept popularity /\ kept last_refresh /\
  kept checksum.
Proof.
  split; [now destruct self|].
  cbv zeta. unfold update, update_scalar, update_always, update_list, update_field;
    simpl.
  repeat match goal with |- _ /\ _ => split end;
    intros Hc;
    repeat match goal with
           | |- context [match ?f new_values with _ => _ end] => destruct (f new_values)
           | |- context [match ?f self with _ => _ end] => destruct (f self)
           | |- context [if ?b then _ else _] => destruct b
           end; congruence.
Qed.

End MediaItemsFacts.

(** * Facts about the media controller *)

Module MediaControllerFacts.
Import MediaController.

Section ControllerFacts.
Variable media_type : string.
Variable create_uri : string -> string -> string -> string.

Abbreviation from_db_row := (from_db_row media_type create_uri).
Abbreviation get_db_item := (get_db_item media_type create_uri).
Abbreviation delete := (delete media_type create_uri).
Abbreviation remove_prov_mapping := (remove_prov_mapping media_type create_uri).

(** The index rows of one item, and those of one item and one provider
    instance. *)
Definition of_item (id : Z) (r : MappingRow) : Prop :=
  pm_media_type r = media_type /\ pm_item_id r = id.
Definition of_item_instance (id : Z) (inst : string) (r : MappingRow) : Prop :=
  pm_media_type r = media_type /\ pm_item_id r = id
  /\ pm_provider_instance r = inst.

(** Every persisted row has at least one provider mapping. *)
Definition rows_have_mappings (db : Database) : Prop :=
  forall r, In r (db_table db) -> row_provider_mappings r <> ∅.

Lemma get_row_Some id db r :
  get_row id db = Some r -> In r (db_table db) /\ row_item_id r = id.
Proof.
  unfold get_row. intros H. apply List.find_some in H as [Hin Hb].
  split; [exact Hin|]. now apply bool_decide_eq_true in Hb.
Qed.

Lemma get_row_delete_rows id id' db :
  get_row id' (delete_rows id db)
  = if bool_decide (id' = id) then None else get_row id' db.
Proof.
  unfold get_row, delete_rows; simpl.
  induction (db_table db) as [|r l IH]; simpl.
  - now destruct (bool_decide _).
  - destruct (bool_decide (row_item_id r = id)) eqn:E; simpl.
    + rewrite IH. apply bool_decide_eq_true in E.
      destruct (bool_decide (id' = id)) eqn:E'; [reflexivity|].
      apply bool_decide_eq_false in E'.
      rewrite bool_decide_eq_false_2; [reflexivity | congruence].
    + destruct (bool_decide (row_item_id r = id')) eqn:E2.
      * apply bool_decide_eq_true in E2. apply bool_decide_eq_false in E.
        rewrite bool_decide_eq_false_2; [reflexivity | congruence].
      * exact IH.
Qed.

Lemma get_row_update_provider_mappings id id' s db :
  get_row id' (update_provider_mappings id s db)
  = if bool_decide (id' = id)
    then (fun r => mkRow (row_item_id r) (row_in_library r) s (row_last_refresh r))
           <$> get_row id' db
    else get_row id' db.
Proof.
  unfold get_row, update_provider_mappings; simpl.
  induction (db_table db) as [|r l IH]; simpl.
  - now destruct (bool_decide _).
  - destruct (bool_decide (row_item_id r = id)) eqn:E; simpl.
    + apply bool_decide_eq_true in E.
      destruct (bool_decide (row_item_id r = id')) eqn:E2.
      * apply bool_decide_eq_true in E2.
        rewrite bool_decide_eq_true_2 by congruence. reflexivity.
      * exact IH.
    + apply bool_decide_eq_false in E.
      destruct (bool_decide (row_item_id r = id')) eqn:E2.
      * apply bool_decide_eq_true in E2.
        rewrite bool_decide_eq_false_2 by congruence. reflexivity.
      * exact IH.
Qed.

Lemma filter_filter_absorb {A} (f g : A -> bool) (l : list A) :
  (forall x, g x = true -> f x = true) ->
  List.filter g (List.filter f l) = List.filter g l.
Proof.
  intros Hfg. induction l as [|x l IH]; simpl; [reflexivity|].
  destruct (f x) eqn:Ef; simpl.
  - now rewrite IH.
  - destruct (g x) eqn:Eg; [|exact IH].
    apply Hfg in Eg. congruence.
Qed.

(** What [remove_prov_mapping] leaves behind when a mapping remains. *)
Definition row_updated (id : Z) (inst : string) (r : Row) (st st' : State) : Prop :=
  let kept : gset ProviderMapping :=
    filter (fun x => provider_instance x <> inst) (row_provider_mappings r) in
  get_row id (database st')
    = Some (mkRow (row_item_id r) (row_in_library r) kept (row_last_refresh r)) /\
  (forall id', id' <> id ->
     get_row id' (database st') = get_row id' (database st)) /\
  (forall r', In r' (db_table (database st')) ->
     In r' (db_table (database st)) \/ row_provider_mappings r' = kept) /\
  (forall x, In x (provider_mappings_table (database st')) <->
     In x (provider_mappings_table (database st))
     /\ ~ of_item_instance id inst x) /\
  events st'
    = events st ++ [mkEvent MEDIA_ITEM_UPDATED (uri (from_db_row r))
                      (set_item_provider_mappings (from_db_row r) kept)].

(** What it leaves behind when no mapping remains. *)
Definition row_deleted (id : Z) (r : Row) (st st' : State) : Prop :=
  (forall r', In r' (db_table (database st')) <->
     In r' (db_table (database st)) /\ row_item_id r' <> id) /\
  (forall x, In x (provider_mappings_table (database st')) <->
     In x (provider_mappings_table (database st)) /\ ~ of_item id x) /\
  events st'
    = events st ++ [mkEvent MEDIA_ITEM_DELETED (uri (from_db_row r)) (from_db_row r)].

Lemma remove_prov_mapping_kept id inst st r :
  get_row id (database st) = Some r ->
  filter (fun x => provider_instance x <> inst) (row_provider_mappings r) <> ∅ ->
  exists st', remove_prov_mapping id inst st = (Return tt, st')
              /\ row_updated id inst r st st'.
Proof.
  intros Hrow Hne.
  unfold remove_prov_mapping, MediaController.get_db_item.
  rewrite Hrow. unfold bind at 1. simpl.
  rewrite bool_decide_eq_true_2 by exact Hne.
  eexists; split; [reflexivity|].
  unfold row_updated; simpl. repeat split.
  - rewrite get_row_update_provider_mappings.
    rewrite bool_decide_eq_true_2 by reflexivity.
    unfold get_row in *; simpl. now rewrite Hrow.
  - intros id' Hid. rewrite get_row_update_provider_mappings.
    now rewrite bool_decide_eq_false_2.
  - intros r' Hin. apply List.in_map_iff in Hin as (r0 & <- & Hin).
    destruct (bool_decide _); [now right | now left].
  - apply List.filter_In in H as [H _]; exact H.
  - apply List.filter_In in H as [_ H].
    apply negb_true_iff, bool_decide_eq_false in H. exact H.
  - intros [Hin Hn]. apply List.filter_In. split; [exact Hin|].
    apply negb_true_iff, bool_decide_eq_false. exact Hn.
Qed.

Lemma remove_prov_mapping_last id inst st r :
  get_row id (database st) = Some r ->
  filter (fun x => provider_instance x <> inst) (row_provider_mappings r) = ∅ ->
  exists st', remove_prov_mapping id inst st = (Return tt, st')
              /\ row_deleted id r st st'.
Proof.
  intros Hrow He.
  unfold remove_prov_mapping, MediaController.get_db_item.
  rewrite Hrow. unfold bind at 1. simpl.
  rewrite bool_decide_eq_false_2 by (intros Hc; apply Hc; exact He).
  unfold suppress_AssertionError, MediaController.delete, bind,
    MediaController.get_db_item; simpl.
  unfold get_row in *; simpl. rewrite Hrow; simpl.
  eexists; split; [reflexivity|].
  unfold row_deleted; simpl. repeat split.
  - apply List.filter_In in H as [H _]; exact H.
  - apply List.filter_In in H as [_ H].
    apply negb_true_iff, bool_decide_eq_false in H. exact H.
  - intros [Hin Hn]. apply List.filter_In. split; [exact Hin|].
    apply negb_true_iff, bool_decide_eq_false. exact Hn.
  - apply List.filter_In in H as [H _].
    apply List.filter_In in H as [H _]. exact H.
  - apply List.filter_In in H as [_ H].
    apply negb_true_iff, bool_decide_eq_false in H. exact H.
  - intros [Hin Hn]. apply List.filter_In. split.
    + apply List.filter_In. split; [exact Hin|].
      apply negb_true_iff, bool_decide_eq_false.
      intros (? & ? & ?). apply Hn. now split.
    + apply negb_true_iff, bool_decide_eq_false. exact Hn.
Qed.

(** C2. For a database item, [remove_prov_mapping] removes exactly the
    mappings of the given provider instance, from the item's mapping set
    and from the index table.  If a mapping remains the row is kept and
    updated and MEDIA_ITEM_UPDATED is signalled; if none remains the row
    and all its index rows are deleted and MEDIA_ITEM_DELETED is
    signalled.  So if every persisted row had a mapping before the call,
    every persisted row has one after it. *)
Theorem remove_prov_mapping_keeps_or_deletes
    (id : Z) (inst : string) (st : State) (r : Row) :
  get_row id (database st) = Some r ->
  let kept : gset ProviderMapping :=
    filter (fun x => provider_instance x <> inst) (row_provider_mappings r) in
  exists st',
    remove_prov_mapping id inst st = (Return tt, st') /\
    (forall x, x ∈ kept <->
       x ∈ row_provider_mappings r /\ provider_instance x <> inst) /\
    (kept <> ∅ -> row_updated id inst r st st') /\
    (kept = ∅ -> row_deleted id r st st') /\
    (rows_have_mappings (database st) -> rows_have_mappings (database st')).
Proof.
  intros Hrow kept.
  destruct (decide (kept = ∅)) as [He|Hne].
  - destruct (remove_prov_mapping_last id inst st r Hrow He) as (st' & Hrun & Hd).
    exists st'. split; [exact Hrun|]. split; [|split; [|split]].
    + intros x. unfold kept. rewrite elem_of_filter. tauto.
    + intros Hc. contradiction.
    + intros _. exact Hd.
    + intros Hinv r' Hin. destruct Hd as (Hrows & _).
      apply Hrows in Hin as [Hin _]. now apply Hinv.
  - destruct (remove_prov_mapping_kept id inst st r Hrow Hne) as (st' & Hrun & Hu).
    exists st'. split; [exact Hrun|]. split; [|split; [|split]].
    + intros x. unfold kept. rewrite elem_of_filter. tauto.
    + intros _. exact Hu.
    + intros Hc. contradiction.
    + intros Hinv r' Hin. destruct Hu as (_ & _ & Hrows & _).
      apply Hrows in Hin as [Hin | ->]; [now apply Hinv | exact Hne].
Qed.

(** A call for an id that is not in the table changes nothing. *)
Lemma remove_prov_mapping_missing (id : Z) (inst : string) (st : State) :
  get_row id (database st) = None ->
  remove_prov_mapping id inst st = (Return tt, st).
Proof.
  intros Hrow. unfold remove_prov_mapping, MediaController.get_db_item.
  now rewrite Hrow.
Qed.
End ControllerFacts.

(** A small database: track 7 is known on two provider instances. *)
Definition sample_create_uri (mt prov id : string) : string :=
  (mt +:+ "://" +:+ prov +:+ "/" +:+ id)%string.

Definition spotify_mapping : ProviderMapping :=
  mkProviderMapping "sp1" "spotify" "spotify_1" true.
Definition qobuz_mapping : ProviderMapping :=
  mkProviderMapping "qb9" "qobuz" "qobuz_1" true.

Definition sample_row : Row :=
  mkRow 7 true ({[ spotify_mapping ]} ∪ {[ qobuz_mapping ]}) (Some 1000).

Definition sample_state : State :=
  mkState
    (mkDatabase [sample_row]
       [mkMappingRow "track" 7 "spotify" "spotify_1" "sp1";
        mkMappingRow "track" 7 "qobuz" "qobuz_1" "qb9"])
    ∅ [] [] [].

Lemma remove_prov_mapping_keeps_or_deletes_witness :
  exists st',
    remove_prov_mapping "track" sample_create_uri 7 "qobuz_1" sample_state
      = (Return tt, st').
Proof.
  destruct (remove_prov_mapping_keeps_or_deletes "track" sample_create_uri
              7 "qobuz_1" sample_state sample_row) as (st' & Hrun & _).
  - reflexivity.
  - exists st'. exact Hrun.
Defined.


(** ** The resolution order of [get] *)

Section GetFacts.
Variable media_type : string.
Variable create_uri : string -> string -> string -> string.
Variable parse_int : string -> option Z.
Variable get_provider : option string -> option Provider.
Variable add : Item -> M Item.

Abbreviation get_db_item_str := (get_db_item_str media_type create_uri parse_int).
Abbreviation get_db_item_by_prov_id :=
  (get_db_item_by_prov_id media_type create_uri parse_int).
Abbreviation get_provider_mapping :=
  (get_provider_mapping media_type create_uri parse_int get_provider).
Abbreviation get_provider_item :=
  (get_provider_item media_type create_uri parse_int get_provider).
Abbreviation fetch_and_add :=
  (fetch_and_add media_type create_uri parse_int get_provider add).
Abbreviation get := (get media_type create_uri parse_int get_provider add).

(** The state with one more background task. *)
Definition with_task (st : State) (d : Item) : State :=
  mkState (database st) (cache st) (events st)
    (tasks st ++ [(("add_" +:+ media_type +:+ "." +:+ provider d +:+ "."
                    +:+ mi_item_id d)%string, d)])
    (provider_calls st).

Lemma get_db_item_str_state s st r st' :
  get_db_item_str s st = (r, st') -> st' = st.
Proof.
  unfold MediaController.get_db_item_str, MediaController.get_db_item, raise.
  destruct (parse_int s); [destruct (get_row _ _)|]; now intros [= _ <-].
Qed.

(** Looking an item up in the database leaves the state as it is; in
    particular no provider is contacted. *)
Lemma get_db_item_by_prov_id_state item_id prov st r st' :
  get_db_item_by_prov_id item_id prov st = (r, st') -> st' = st.
Proof.
  unfold MediaController.get_db_item_by_prov_id.
  destruct (bool_decide _).
  - unfold bind. destruct (get_db_item_str item_id st) as [[i|e] st1] eqn:E;
      apply get_db_item_str_state in E; subst; now intros [= _ <-].
  - unfold bind, get_db_items_by_prov_id, ret; simpl. now intros [= _ <-].
Qed.

Lemma get_provider_mapping_state d st r st' :
  get_provider_mapping d st = (r, st') -> st' = st.
Proof.
  unfold MediaController.get_provider_mapping, bind.
  destruct (bool_decide _).
  - destruct (get_db_item_str (mi_item_id d) st) as [[i|e] st1] eqn:E;
      apply get_db_item_str_state in E; subst; [|now intros [= _ <-]].
    repeat (destruct (List.find _ _)); unfold ret; now intros [= _ <-].
  - unfold ret at 1.
    repeat (destruct (List.find _ _)); unfold ret; now intros [= _ <-].
Qed.

Lemma get_database_without_add item_id force_refresh lazy details now st :
  get item_id "database" force_refresh lazy details false now st
  = get_db_item_str item_id st.
Proof. reflexivity. Qed.

Lemma get_lookup item_id prov force_refresh lazy details add_to_db now st :
  ~ (add_to_db = false /\ prov = "database"%string) ->
  get item_id prov force_refresh lazy details add_to_db now st
  = match get_db_item_by_prov_id item_id prov st with
    | (Return (Some d), st1) =>
        if (if refresh_due now d then true else force_refresh) && add_to_db then
          match get_provider_mapping d st1 with
          | (Return pi, st2) =>
              fetch_and_add (snd pi) (fst pi)
                (if refresh_due now d then true else force_refresh)
                lazy (usable_details details) add_to_db st2
          | (Raise e, st2) => (Raise e, st2)
          end
        else (Return d, st1)
    | (Return None, st1) =>
        fetch_and_add (Some item_id) (Some prov) force_refresh lazy
          (usable_details details) add_to_db st1
    | (Raise e, st1) => (Raise e, st1)
    end.
Proof.
  intros Hn. unfold MediaController.get.
  assert (negb add_to_db && bool_decide (prov = "database"%string) = false) as ->.
  { destruct add_to_db; simpl; [reflexivity|].
    apply bool_decide_eq_false. intros ->. now apply Hn. }
  unfold bind at 1.
  destruct (get_db_item_by_prov_id item_id prov st) as [[[d|]|e] st1];
    try reflexivity.
  destruct (_ && _); reflexivity.
Qed.

Lemma fetch_and_add_details i p fr lazy d add_to_db st :
  fetch_and_add i p fr lazy (Some d) add_to_db st
  = if add_to_db
    then if lazy then (Return d, with_task st d) else add d (with_task st d)
    else (Return d, st).
Proof.
  unfold MediaController.fetch_and_add, bind, ret, create_task, with_task.
  destruct add_to_db, lazy; reflexivity.
Qed.

Lemma fetch_and_add_fetch i p fr lazy add_to_db st :
  fetch_and_add i p fr lazy None add_to_db st
  = match get_provider_item i p fr st with
    | (Return d, st1) => fetch_and_add i p fr lazy (Some d) add_to_db st1
    | (Raise e, st1) => (Raise e, st1)
    end.
Proof.
  unfold MediaController.fetch_and_add, bind at 1 3.
  destruct (get_provider_item i p fr st) as [[d|e] st1]; reflexivity.
Qed.

End GetFacts.

(** ** [get] on the sample database *)

Definition sample_parse_int (s : string) : option Z :=
  if bool_decide (s = "7"%string) then Some 7 else None.

Definition spotify_item : Item :=
  mkItem "sp1" "spotify_1" "track://spotify_1/sp1" false {[ spotify_mapping ]} (Some 2000).

Definition spotify_provider : Provider :=
  mkProvider "spotify_1"
    (fun mt id => if bool_decide (id = "sp1"%string) then Some spotify_item else None).

Definition sample_get_provider (p : option string) : option Provider :=
  if bool_decide (p = Some "spotify_1"%string) then Some spotify_provider else None.

(** An [add] that hands back the row of track 7. *)
Definition sample_add (d : Item) : M Item :=
  get_db_item "track" sample_create_uri 7.

Definition sample_get :=
  get "track" sample_create_uri sample_parse_int sample_get_provider sample_add.


Example get_fresh_row_returned :
  sample_get "sp1" "spotify_1" false true None true 5000%Q sample_state
  = (Return (from_db_row "track" sample_create_uri sample_row), sample_state).
Proof. vm_compute. reflexivity. Qed.

Example get_stale_row_refreshed :
  let r := sample_get "sp1" "spotify_1" false true None true 3000000%Q sample_state in
  fst r = Return spotify_item /\
  provider_calls (snd r) = [("spotify_1", "sp1")]%string /\
  List.map fst (tasks (snd r)) = ["add_track.spotify_1.sp1"%string].
Proof. vm_compute. repeat split. Qed.

Example get_not_lazy_returns_added :
  fst (sample_get "sp1" "spotify_1" true false None true 5000%Q sample_state)
  = Return (from_db_row "track" sample_create_uri sample_row).
Proof. vm_compute. reflexivity. Qed.



(** ** Further facts on the controller *)

Section MoreControllerFacts.
Variable media_type : string.
Variable create_uri : string -> string -> string -> string.
Variable parse_int : string -> option Z.
Variable get_provider : option string -> option Provider.

Abbreviation delete' := (delete media_type create_uri).
Abbreviation get_db_item' := (get_db_item media_type create_uri).
Abbreviation remove_prov_mapping' := (remove_prov_mapping media_type create_uri).
Abbreviation get_provider_item' :=
  (get_provider_item media_type create_uri parse_int get_provider).
Abbreviation get_db_item_by_prov_id' :=
  (get_db_item_by_prov_id media_type create_uri parse_int).
Abbreviation get_provider_mapping' :=
  (get_provider_mapping media_type create_uri parse_int get_provider).

(** X6. [delete] of an id that is not in the table raises
    [MediaNotFoundError] and changes nothing.  [delete] of a row removes
    the rows with this id and the index rows of this item and media type,
    signals one MEDIA_ITEM_DELETED event with the item as it was, and leaves
    cache, tasks and providers alone; a second [delete] of the same id
    raises [MediaNotFoundError]. *)
Theorem delete_removes_item_once (id : Z) (st : State) :
  (get_row id (database st) = None ->
   delete' id st = (Raise MediaNotFoundError, st)) /\
  (forall r, get_row id (database st) = Some r ->
   exists st',
     delete' id st = (Return tt, st') /\
     row_deleted media_type create_uri id r st st' /\
     cache st' = cache st /\ tasks st' = tasks st /\
     provider_calls st' = provider_calls st /\
     delete' id st' = (Raise MediaNotFoundError, st')).
Proof.
  split.
  - intros Hrow. unfold MediaController.delete, bind, MediaController.get_db_item.
    now rewrite Hrow.
  - intros r Hrow.
    unfold MediaController.delete at 1, bind, MediaController.get_db_item.
    rewrite Hrow. simpl. eexists. split; [reflexivity|].
    split; [|split; [reflexivity | split; [reflexivity | split; [reflexivity|]]]].
    + unfold row_deleted; simpl. repeat split.
      * apply List.filter_In in H as [H _]; exact H.
      * apply List.filter_In in H as [_ H].
        apply negb_true_iff, bool_decide_eq_false in H. exact H.
      * intros [Hin Hn]. apply List.filter_In. split; [exact Hin|].
        apply negb_true_iff, bool_decide_eq_false. exact Hn.
      * apply List.filter_In in H as [H _]; exact H.
      * apply List.filter_In in H as [_ H].
        apply negb_true_iff, bool_decide_eq_false in H. exact H.
      * intros [Hin Hn]. apply List.filter_In. split; [exact Hin|].
        apply negb_true_iff, bool_decide_eq_false. exact Hn.
    + unfold MediaController.delete, bind, MediaController.get_db_item. simpl.
      pose proof (get_row_delete_rows id id (database st)) as Hg.
      rewrite bool_decide_eq_true_2 in Hg by reflexivity.
      unfold get_row, delete_rows in *. simpl in *. now rewrite Hg.
Qed.

(** X7. [get_provider_item] for a provider other than ["database"] that
    knows the item: a forced fetch asks the provider once, returns its item
    and stores it in the cache; a following call without [force_refresh]
    returns the same item from the cache, without a call to the provider and
    without any change of state. *)
Theorem get_provider_item_fills_cache
    (item_id prov : option string) (p : Provider) (item : Item) (st : State) :
  prov <> Some "database"%string ->
  get_provider prov = Some p ->
  get_item p media_type (fmt item_id) = Some item ->
  exists st1,
    get_provider_item' item_id prov true st = (Return item, st1) /\
    provider_calls st1 = provider_calls st ++ [(instance_id p, fmt item_id)] /\
    database st1 = database st /\
    get_provider_item' item_id prov false st1 = (Return item, st1).
Proof.
  intros Hdb Hp Hi. unfold MediaController.get_provider_item.
  rewrite (bool_decide_eq_false_2 _ Hdb). rewrite Hp.
  unfold bind, log_provider_call, cache_set, ret. simpl. rewrite Hi. simpl.
  eexists. split; [reflexivity|]. simpl. split; [reflexivity|].
  split; [reflexivity|]. now rewrite lookup_insert_eq.
Qed.

(** X8. [get_provider_item] without a cached item raises
    [MediaNotFoundError] when the provider is unknown, the state
    unchanged, and when the provider does not have the item, with nothing
    cached. *)
Theorem get_provider_item_not_found
    (item_id prov : option string) (force_refresh : bool) (st : State) :
  prov <> Some "database"%string ->
  (force_refresh = false ->
   cache st !! ("provider_item." +:+ media_type +:+ "." +:+ fmt prov +:+ "."
                +:+ fmt item_id)%string = None) ->
  (get_provider prov = None ->
   get_provider_item' item_id prov force_refresh st = (Raise MediaNotFoundError, st)) /\
  (forall p, get_provider prov = Some p ->
   get_item p media_type (fmt item_id) = None ->
   exists st1,
     get_provider_item' item_id prov force_refresh st = (Raise MediaNotFoundError, st1)
     /\ cache st1 = cache st /\ database st1 = database st).
Proof.
  intros Hdb Hc.
  assert (Hmiss : (if force_refresh then None
                   else cache st !! ("provider_item." +:+ media_type +:+ "."
                                     +:+ fmt prov +:+ "." +:+ fmt item_id)%string)
                  = None).
  { destruct force_refresh; [reflexivity | now apply Hc]. }
  split.
  - intros Hp. unfold MediaController.get_provider_item.
    rewrite (bool_decide_eq_false_2 _ Hdb), Hmiss, Hp. reflexivity.
  - intros p Hp Hi. unfold MediaController.get_provider_item.
    rewrite (bool_decide_eq_false_2 _ Hdb), Hmiss, Hp.
    unfold bind, log_provider_call, raise. simpl. rewrite Hi.
    eexists. repeat split.
Qed.
End MoreControllerFacts.

Lemma delete_removes_item_once_witness :
  exists st',
    delete "track" sample_create_uri 7 sample_state = (Return tt, st') /\
    delete "track" sample_create_uri 7 st' = (Raise MediaNotFoundError, st').
Proof.
  destruct (delete_removes_item_once "track" sample_create_uri 7 sample_state)
    as (_ & Hdel).
  destruct (Hdel sample_row eq_refl) as (st' & Hrun & _ & _ & _ & _ & Hagain).
  exists st'. split; [exact Hrun | exact Hagain].
Defined.

Lemma get_provider_item_fills_cache_witness :
  exists st1,
    get_provider_item "track" sample_create_uri sample_parse_int sample_get_provider
      (Some "sp1"%string) (Some "spotify_1"%string) true sample_state
    = (Return spotify_item, st1) /\
    get_provider_item "track" sample_create_uri sample_parse_int sample_get_provider
      (Some "sp1"%string) (Some "spotify_1"%string) false st1
    = (Return spotify_item, st1).
Proof.
  destruct (get_provider_item_fills_cache "track" sample_create_uri sample_parse_int
              sample_get_provider (Some "sp1"%string) (Some "spotify_1"%string)
              spotify_provider spotify_item sample_state)
    as (st1 & Hrun & _ & _ & Hagain).
  - discriminate.
  - reflexivity.
  - reflexivity.
  - exists st1. split; [exact Hrun | exact Hagain].
Defined.

Lemma get_provider_item_not_found_witness :
  get_provider_item "track" sample_create_uri sample_parse_int sample_get_provider
    (Some "x"%string) (Some "tidal_1"%string) false sample_state
  = (Raise MediaNotFoundError, sample_state).
Proof.
  refine (proj1 (get_provider_item_not_found "track" sample_create_uri sample_parse_int
                   sample_get_provider (Some "x"%string) (Some "tidal_1"%string) false
                   sample_state _ _) _).
  - discriminate.
  - intros _. reflexivity.
  - reflexivity.
Defined.

(** *** Removing a provider twice *)

Lemma update_provider_mappings_twice id s db :
  update_provider_mappings id s (update_provider_mappings id s db)
  = update_provider_mappings id s db.
Proof.
  unfold update_provider_mappings; simpl. f_equal.
  rewrite List.map_map. apply List.map_ext. intros r.
  destruct (bool_decide (row_item_id r = id)) eqn:E; simpl; now rewrite E.
Qed.

Lemma delete_mapping_rows_twice keep db :
  delete_mapping_rows keep (delete_mapping_rows keep db) = delete_mapping_rows keep db.
Proof.
  unfold delete_mapping_rows; simpl. f_equal. now apply filter_filter_absorb.
Qed.

Lemma filter_instance_twice inst (s : gset ProviderMapping) :
  filter (fun x => provider_instance x <> inst)
    (filter (fun x => provider_instance x <> inst) s)
  = filter (fun x => provider_instance x <> inst) s.
Proof. apply set_eq. intros x. rewrite !elem_of_filter. tauto. Qed.

(** X9. [remove_prov_mapping] is idempotent on the database: a second
    call for the same item and provider instance returns normally and
    leaves both tables as the first call left them. *)
Theorem remove_prov_mapping_twice
    (media_type : string) (create_uri : string -> string -> string -> string)
    (id : Z) (inst : string) (st : State) :
  exists st1 st2,
    remove_prov_mapping media_type create_uri id inst st = (Return tt, st1) /\
    remove_prov_mapping media_type create_uri id inst st1 = (Return tt, st2) /\
    database st2 = database st1.
Proof.
  destruct (get_row id (database st)) as [r|] eqn:Hrow.
  - destruct (decide (filter (fun x => provider_instance x <> inst)
                             (row_provider_mappings r) = ∅)) as [He|Hne].
    + destruct (remove_prov_mapping_last media_type create_uri id inst st r Hrow He)
        as (st1 & Hrun & Hrows & _).
      exists st1, st1. split; [exact Hrun|]. split; [|reflexivity].
      apply remove_prov_mapping_missing.
      destruct (get_row id (database st1)) as [r'|] eqn:E; [|reflexivity].
      apply get_row_Some in E as [Hin Hid]. apply Hrows in Hin. tauto.
    + destruct (remove_prov_mapping_kept media_type create_uri id inst st r Hrow Hne)
        as (st1 & Hrun & Hrow1 & _).
      exists st1. revert Hrun.
      unfold remove_prov_mapping, get_db_item. rewrite Hrow.
      unfold bind at 1. simpl.
      rewrite (bool_decide_eq_true_2 _ Hne).
      unfold bind, set_database, signal_event. simpl. intros [= <-].
      simpl in *. rewrite Hrow1. simpl.
      rewrite filter_instance_twice. rewrite (bool_decide_eq_true_2 _ Hne).
      eexists. split; [reflexivity|]. split; [reflexivity|]. simpl.
      pose proof (update_provider_mappings_twice id
                    (filter (fun x => provider_instance x <> inst)
                            (row_provider_mappings r))
                    (delete_mapping_rows
                       (fun r0 => negb (bool_decide
                          (pm_media_type r0 = media_type /\ pm_item_id r0 = id
                           /\ pm_provider_instance r0 = inst))) (database st))) as Hu.
      unfold update_provider_mappings, delete_mapping_rows in *. simpl in *.
      injection Hu as Hu. f_equal; [exact Hu|].
      now apply filter_filter_absorb.
  - exists st, st. split; [|split; [|reflexivity]];
      now apply remove_prov_mapping_missing.
Qed.

Example remove_last_mapping_deletes_row :
  let st1 := snd (remove_prov_mapping "track" sample_create_uri 7 "qobuz_1" sample_state) in
  let st2 := snd (remove_prov_mapping "track" sample_create_uri 7 "spotify_1" st1) in
  List.map event (events st2) = [MEDIA_ITEM_UPDATED; MEDIA_ITEM_DELETED] /\
  db_table (database st2) = [] /\ provider_mappings_table (database st2) = [].
Proof. vm_compute. repeat split. Qed.

(** *** Choosing a provider mapping *)

Section MappingChoice.
Variable media_type : string.
Variable create_uri : string -> string -> string -> string.
Variable parse_int : string -> option Z.
Variable get_provider : option string -> option Provider.

(** A mapping that [get_provider_mapping] may return. *)
Definition usable (m : ProviderMapping) : Prop :=
  available m = true /\ is_Some (get_provider (Some (provider_instance m))).

Definition on_file_system (m : ProviderMapping) : Prop :=
  String.prefix "filesystem" (provider_domain m) = true.

(** X10. For an item of a provider other than ["database"],
    [get_provider_mapping] leaves the state alone and returns the instance
    and item id of a mapping of the item that is available and whose
    provider is known, one on a file system if there is such a one among
    them; it returns [(None, None)] exactly when no mapping is usable. *)
Theorem get_provider_mapping_prefers_files (item : Item) (st : State) :
  provider item <> "database"%string ->
  exists r,
    get_provider_mapping media_type create_uri parse_int get_provider item st
    = (Return r, st) /\
    ((r = (None, None) /\ forall m, m ∈ provider_mappings item -> ~ usable m) \/
     (exists m, m ∈ provider_mappings item /\ usable m /\
        r = (Some (provider_instance m), Some (item_id m)) /\
        ((exists m', m' ∈ provider_mappings item /\ usable m' /\ on_file_system m')
         -> on_file_system m))).
Proof.
  intros Hdb. unfold get_provider_mapping.
  rewrite (bool_decide_eq_false_2 _ Hdb). unfold bind, ret.
  match goal with
  | |- context [List.find ?f ?l] => destruct (List.find f l) as [m|] eqn:E1
  end.
  - eexists. split; [reflexivity|]. right. exists m.
    apply List.find_some in E1 as [Hin Hb].
    apply andb_true_iff in Hb as [Hb Hp]. apply andb_true_iff in Hb as [Ha Hf].
    apply bool_decide_eq_true in Hp. apply negb_true_iff in Hf. simpl in Hf.
    apply negb_false_iff in Hf.
    split; [now apply elem_of_elements, list_elem_of_In|].
    split; [now split|]. split; [reflexivity|]. intros _. exact Hf.
  - assert (Hnofile : forall m', m' ∈ provider_mappings item -> usable m' ->
                                 ~ on_file_system m').
    { intros m' Hin [Ha Hp] Hf.
      apply elem_of_elements, list_elem_of_In in Hin.
      pose proof (List.find_none _ _ E1 m' Hin) as Hb. simpl in Hb.
      unfold on_file_system in Hf. rewrite Ha, Hf in Hb. simpl in Hb.
      now rewrite (bool_decide_eq_true_2 _ Hp) in Hb. }
    match goal with
    | |- context [List.find ?f ?l] => destruct (List.find f l) as [m|] eqn:E2
    end.
    + eexists. split; [reflexivity|]. right. exists m.
      apply List.find_some in E2 as [Hin Hb].
      apply andb_true_iff in Hb as [Hb Hp]. apply andb_true_iff in Hb as [Ha _].
      apply bool_decide_eq_true in Hp.
      split; [now apply elem_of_elements, list_elem_of_In|].
      split; [now split|]. split; [reflexivity|].
      intros (m' & Hin' & Hu' & Hf'). exfalso. now apply (Hnofile m').
    + eexists. split; [reflexivity|]. left. split; [reflexivity|].
      intros m Hin [Ha Hp]. apply elem_of_elements, list_elem_of_In in Hin.
      pose proof (List.find_none _ _ E2 m Hin) as Hb. simpl in Hb.
      rewrite Ha in Hb. simpl in Hb.
      now rewrite (bool_decide_eq_true_2 _ Hp) in Hb.
Qed.

(** *** Looking an item up by its provider id *)

(** An index row that points at the table row [r] for the given provider
    (instance or domain) and provider item id; the media type of the index
    row plays no part. *)
Definition points_at (prov item_id : string) (r : Row) (x : MappingRow) : Prop :=
  pm_item_id x = row_item_id r /\
  (pm_provider_instance x = prov \/ pm_provider_domain x = prov) /\
  pm_provider_item_id x = item_id.

Lemma in_subquery prov item_id db id :
  In id (List.map pm_item_id
          (List.filter
             (fun r => (bool_decide (pm_provider_instance r = prov)
                        || bool_decide (pm_provider_domain r = prov))
                       && bool_decide (pm_provider_item_id r ∈ [item_id]))
             (provider_mappings_table db))) <->
  exists x, In x (provider_mappings_table db) /\ pm_item_id x = id /\
            (pm_provider_instance x = prov \/ pm_provider_domain x = prov) /\
            pm_provider_item_id x = item_id.
Proof.
  rewrite List.in_map_iff. split.
  - intros (x & Hid & Hin). apply List.filter_In in Hin as [Hin Hb].
    apply andb_true_iff in Hb as [Hp Hi]. apply orb_true_iff in Hp.
    apply bool_decide_eq_true in Hi. apply list_elem_of_singleton in Hi.
    exists x. repeat split; try assumption.
    destruct Hp as [Hp|Hp]; apply bool_decide_eq_true in Hp; auto.
  - intros (x & Hin & Hid & Hp & Hi). exists x. split; [exact Hid|].
    apply List.filter_In. split; [exact Hin|].
    apply andb_true_iff. split.
    + apply orb_true_iff. destruct Hp as [Hp|Hp]; [left|right];
        now apply bool_decide_eq_true.
    + apply bool_decide_eq_true. now apply list_elem_of_singleton.
Qed.

End MappingChoice.

Lemma get_provider_mapping_prefers_files_witness :
  exists r,
    get_provider_mapping "track" sample_create_uri sample_parse_int sample_get_provider
      spotify_item sample_state = (Return r, sample_state).
Proof.
  destruct (get_provider_mapping_prefers_files "track" sample_create_uri
              sample_parse_int sample_get_provider spotify_item sample_state)
    as (r & Hrun & _).
  - discriminate.
  - exists r. exact Hrun.
Defined.


Example lookup_by_domain_finds_track :
  fst (get_db_item_by_prov_id "track" sample_create_uri sample_parse_int
         "qb9" "qobuz" sample_state)
  = Return (Some (from_db_row "track" sample_create_uri sample_row)).
Proof. vm_compute. reflexivity. Qed.

(** *** The library flag *)

Lemma set_row_in_library_missing id flag db :
  get_row id db = None -> set_row_in_library id flag db = db.
Proof.
  intros Hrow. destruct db as [rows idx]. unfold set_row_in_library; simpl. f_equal.
  unfold get_row in Hrow; simpl in Hrow.
  induction rows as [|r rows IH]; simpl in *; [reflexivity|].
  destruct (bool_decide (row_item_id r = id)); [discriminate|].
  now rewrite IH.
Qed.

Lemma get_row_set_row_in_library id id' flag db :
  get_row id' (set_row_in_library id flag db)
  = if bool_decide (id' = id)
    then (fun r => mkRow (row_item_id r) flag (row_provider_mappings r)
                         (row_last_refresh r)) <$> get_row id' db
    else get_row id' db.
Proof.
  unfold get_row, set_row_in_library; simpl.
  induction (db_table db) as [|r l IH]; simpl.
  - now destruct (bool_decide _).
  - destruct (bool_decide (row_item_id r = id)) eqn:E; simpl.
    + apply bool_decide_eq_true in E.
      destruct (bool_decide (row_item_id r = id')) eqn:E2.
      * apply bool_decide_eq_true in E2.
        rewrite bool_decide_eq_true_2 by congruence. reflexivity.
      * exact IH.
    + apply bool_decide_eq_false in E.
      destruct (bool_decide (row_item_id r = id')) eqn:E2.
      * apply bool_decide_eq_true in E2.
        rewrite bool_decide_eq_false_2 by congruence. reflexivity.
      * exact IH.
Qed.

(** X12. [set_db_library] on an id that is not in the table raises
    [MediaNotFoundError] and changes nothing.  On a row it sets the flag of
    that row only, and signals one MEDIA_ITEM_UPDATED event whose item
    carries the new flag. *)
Theorem set_db_library_sets_flag
    (media_type : string) (create_uri : string -> string -> string -> string)
    (id : Z) (flag : bool) (st : State) :
  (get_row id (database st) = None ->
   set_db_library media_type create_uri id flag st = (Raise MediaNotFoundError, st)) /\
  (forall r, get_row id (database st) = Some r ->
   let r' := mkRow (row_item_id r) flag (row_provider_mappings r) (row_last_refresh r) in
   exists st',
     set_db_library media_type create_uri id flag st = (Return tt, st') /\
     get_row id (database st') = Some r' /\
     (forall id', id' <> id -> get_row id' (database st') = get_row id' (database st)) /\
     provider_mappings_table (database st') = provider_mappings_table (database st) /\
     events st' = events st
                  ++ [mkEvent MEDIA_ITEM_UPDATED
                        (uri (from_db_row media_type create_uri r'))
                        (from_db_row media_type create_uri r')] /\
     in_library (from_db_row media_type create_uri r') = flag).
Proof.
  split.
  - intros Hrow. unfold set_db_library, bind, set_database, get_db_item. simpl.
    rewrite (set_row_in_library_missing _ _ _ Hrow), Hrow.
    now destruct st.
  - intros r Hrow r'.
    assert (Hnew : get_row id (set_row_in_library id flag (database st)) = Some r').
    { rewrite get_row_set_row_in_library, bool_decide_eq_true_2 by reflexivity.
      now rewrite Hrow. }
    unfold set_db_library, bind, set_database, get_db_item, signal_event. simpl.
    rewrite Hnew. eexists. split; [reflexivity|]. simpl.
    split; [exact Hnew|]. split.
    + intros id' Hid. rewrite get_row_set_row_in_library.
      now rewrite bool_decide_eq_false_2.
    + repeat split.
Qed.

Lemma set_db_library_sets_flag_witness :
  exists st',
    set_db_library "track" sample_create_uri 7 false sample_state = (Return tt, st') /\
    get_row 7 (database st')
    = Some (mkRow 7 false (row_provider_mappings sample_row) (Some 1000)).
Proof.
  destruct (set_db_library_sets_flag "track" sample_create_uri 7 false sample_state)
    as (_ & Hset).
  destruct (Hset sample_row eq_refl) as (st' & Hrun & Hrow & _).
  exists st'. split; [exact Hrun | exact Hrow].
Defined.

(** *** Pages *)

Section ListingFacts.
Variable media_type : string.
Variable create_uri : string -> string -> string -> string.
Variable run_query : option bool -> option string -> string -> Database -> list Row.

Abbreviation db_items' := (db_items media_type create_uri run_query).
Abbreviation iter_pages' := (iter_pages media_type create_uri run_query).

(** X13. The total that [db_items] reports is the number of rows the
    query matches, whether it is computed from the page or counted by the
    database; the page holds the rows from [offset] on, at most [limit] of
    them. *)
Theorem db_items_total_is_exact (in_library : option bool) (search : option string)
    (limit offset : nat) (order_by : string) (db : Database) :
  let result := run_query in_library search order_by db in
  let page := db_items' in_library search limit offset order_by db in
  paged_total page = length result /\
  paged_items page
  = List.map (from_db_row media_type create_uri) (firstn limit (skipn offset result)) /\
  paged_count page = length (paged_items page) /\
  paged_count page = Nat.min limit (length result - offset).
Proof.
  cbv zeta. unfold db_items; simpl.
  set (result := run_query in_library search order_by db).
  rewrite !length_map, !length_firstn, !length_skipn.
  split; [|repeat split].
  destruct (0 <? Nat.min limit (length result - offset))%nat eqn:E1; simpl;
    [|reflexivity].
  destruct (Nat.min limit (length result - offset) <? limit)%nat eqn:E2;
    [|reflexivity].
  apply Nat.ltb_lt in E1, E2. lia.
Qed.

Lemma iter_pages_all in_library search order_by limit db :
  (0 < limit)%nat ->
  forall fuel offset,
    (length (run_query in_library search order_by db) - offset < fuel * limit)%nat ->
    iter_pages' fuel in_library search order_by limit offset db
    = Some (List.map (from_db_row media_type create_uri)
                     (skipn offset (run_query in_library search order_by db))).
Proof.
  intros Hl. set (result := run_query in_library search order_by db).
  induction fuel as [|fuel IH]; intros offset Hlen; [simpl in Hlen; lia|].
  simpl. fold result.
  rewrite length_map, length_firstn, length_skipn.
  destruct (Nat.min limit (length result - offset) <? limit)%nat eqn:E.
  - apply Nat.ltb_lt in E. f_equal. f_equal.
    apply firstn_all2. rewrite length_skipn. lia.
  - apply Nat.ltb_ge in E.
    rewrite IH by (simpl in Hlen; lia). simpl. f_equal.
    rewrite <- List.map_app. f_equal.
    transitivity (firstn limit (skipn offset result)
                  ++ skipn limit (skipn offset result)); [|apply firstn_skipn].
    f_equal. rewrite skipn_skipn. f_equal. lia.
Qed.

(** X14. [iter_db_items] yields every row the query matches, once and in
    the order of the query; it needs one page of 500 more than the rows
    fill. *)
Theorem iter_db_items_yields_all (in_library : option bool) (search : option string)
    (order_by : string) (db : Database) (fuel : nat) :
  (length (run_query in_library search order_by db) < fuel * 500)%nat ->
  iter_db_items media_type create_uri run_query fuel in_library search order_by db
  = Some (List.map (from_db_row media_type create_uri)
                   (run_query in_library search order_by db)).
Proof.
  intros Hlen. unfold iter_db_items.
  rewrite iter_pages_all; [reflexivity | lia | lia].
Qed.
End ListingFacts.

(** A query that ignores [search] and the order: the rows with the wanted
    library flag, in table order. *)
Definition sample_run_query (in_library : option bool) (search : option string)
    (order_by : string) (db : Database) : list Row :=
  List.filter (fun r => match in_library with
                        | Some b => bool_decide (row_in_library r = b)
                        | None => true
                        end) (db_table db).

Lemma iter_db_items_yields_all_witness :
  iter_db_items "track" sample_create_uri sample_run_query 1 (Some true) None
    "sort_name" (database sample_state)
  = Some [from_db_row "track" sample_create_uri sample_row].
Proof.
  apply (iter_db_items_yields_all "track" sample_create_uri sample_run_query
           (Some true) None "sort_name" (database sample_state) 1).
  vm_compute. lia.
Defined.

(** *** The safe search string *)

Lemma count_char_append c s1 s2 :
  MediaItemsFacts.count_char c (s1 +:+ s2)
  = (MediaItemsFacts.count_char c s1 + MediaItemsFacts.count_char c s2)%nat.
Proof. induction s1 as [|a s1 IH]; simpl; [reflexivity|]. rewrite IH. lia. Qed.

Lemma replace_char_removes old new s :
  MediaItemsFacts.count_char old new = 0%nat ->
  MediaItemsFacts.count_char old (replace_char old new s) = 0%nat.
Proof.
  intros Hnew. induction s as [|c s IH]; simpl; [reflexivity|].
  destruct (bool_decide (c = old)) eqn:E.
  - rewrite count_char_append. lia.
  - simpl. rewrite E. exact IH.
Qed.

Lemma replace_char_other old new c s :
  c <> old -> MediaItemsFacts.count_char c new = 0%nat ->
  MediaItemsFacts.count_char c (replace_char old new s)
  = MediaItemsFacts.count_char c s.
Proof.
  intros Hc Hnew. induction s as [|a s IH]; simpl; [reflexivity|].
  destruct (bool_decide (a = old)) eqn:E.
  - apply bool_decide_eq_true in E. subst a.
    rewrite count_char_append, Hnew, IH.
    now rewrite (bool_decide_eq_false_2 (old = c)) by congruence.
  - simpl. now rewrite IH.
Qed.

Lemma replace_char_absent old new s :
  MediaItemsFacts.count_char old s = 0%nat -> replace_char old new s = s.
Proof.
  induction s as [|c s IH]; simpl; [reflexivity|].
  destruct (bool_decide (c = old)); simpl; [discriminate|].
  intros H. now rewrite IH.
Qed.

(** X15. The safe search string holds neither a slash nor a single
    quote, and a query that has neither is left as it is. *)
Theorem safe_search_string_is_clean (search_query : string) :
  MediaItemsFacts.count_char "/"%char (safe_search_string search_query) = 0%nat /\
  MediaItemsFacts.count_char "'"%char (safe_search_string search_query) = 0%nat /\
  (MediaItemsFacts.count_char "/"%char search_query = 0%nat ->
   MediaItemsFacts.count_char "'"%char search_query = 0%nat ->
   safe_search_string search_query = search_query).
Proof.
  unfold safe_search_string. split; [|split].
  - rewrite replace_char_other; [|discriminate | reflexivity].
    now apply replace_char_removes.
  - now apply replace_char_removes.
  - intros Hs Hq. rewrite (replace_char_absent "/"%char " " _ Hs).
    now apply replace_char_absent.
Qed.

Example safe_search_string_ac_dc :
  safe_search_string "AC/DC - Rock'n'Roll" = "AC DC - RocknRoll"%string.
Proof. reflexivity. Qed.

Lemma safe_search_string_is_clean_witness :
  safe_search_string "Come Together" = "Come Together"%string.
Proof.
  destruct (safe_search_string_is_clean "Come Together") as (_ & _ & H).
  apply H; reflexivity.
Defined.

End MediaControllerFacts.

(** * Facts about the music manager *)

Module MusicManagerFacts.
Import MusicManager.

(** ** Sync jobs *)

Definition occurrences (tag : sync_job) (l : list sync_job) : nat :=
  length (List.filter (fun j => bool_decide (j = tag)) l).

Lemma already_running_In desc prov_id st :
  already_running desc prov_id st = true <-> In (prov_id, desc) (running_sync_jobs st).
Proof.
  unfold already_running. rewrite existsb_exists. split.
  - intros ([p d] & Hin & Hb). apply andb_true_iff in Hb as [Hp Hd].
    apply bool_decide_eq_true in Hp, Hd. simpl in *. now subst.
  - intros Hin. exists (prov_id, desc). split; [exact Hin|].
    simpl. now rewrite !bool_decide_eq_true_2.
Qed.

Lemma already_running_false desc prov_id st :
  already_running desc prov_id st = false <-> ~ In (prov_id, desc) (running_sync_jobs st).
Proof.
  rewrite <- already_running_In. now destruct (already_running desc prov_id st).
Qed.

Lemma occurrences_app tag l1 l2 :
  occurrences tag (l1 ++ l2) = (occurrences tag l1 + occurrences tag l2)%nat.
Proof. unfold occurrences. now rewrite List.filter_app, length_app. Qed.

Lemma occurrences_not_In tag l : ~ In tag l -> occurrences tag l = 0%nat.
Proof.
  unfold occurrences. induction l as [|x l IH]; simpl; [reflexivity|].
  intros Hn. rewrite bool_decide_eq_false_2 by (intros ->; apply Hn; now left).
  apply IH. intros Hin. apply Hn. now right.
Qed.

Lemma occurrences_pos_In tag l : (0 < occurrences tag l)%nat -> In tag l.
Proof.
  intros Hpos. destruct (In_dec (fun a b => decide (a = b)) tag l) as [Hin|Hn];
    [exact Hin|].
  rewrite occurrences_not_In in Hpos by exact Hn. lia.
Qed.

Lemma list_remove_In x l : In x l -> exists l', list_remove x l = Some l'.
Proof.
  induction l as [|y l IH]; simpl; [contradiction|].
  intros Hin. destruct (bool_decide (y = x)) eqn:E; [eauto|].
  apply bool_decide_eq_false in E. destruct Hin as [Hy|Hin]; [contradiction|].
  destruct (IH Hin) as (l' & ->). simpl. eauto.
Qed.

Lemma list_remove_occurrences x l l' tag :
  list_remove x l = Some l' ->
  occurrences tag l
  = (occurrences tag l' + if bool_decide (x = tag) then 1 else 0)%nat.
Proof.
  revert l'. induction l as [|y l IH]; simpl; intros l'; [discriminate|].
  destruct (bool_decide (y = x)) eqn:E.
  - intros [= <-]. apply bool_decide_eq_true in E. subst y.
    unfold occurrences; simpl. destruct (bool_decide (x = tag)); simpl; lia.
  - destruct (list_remove x l) as [l0|]; simpl; [|discriminate].
    intros [= <-]. specialize (IH l0 eq_refl).
    unfold occurrences in *; simpl.
    destruct (bool_decide (y = tag)); simpl; rewrite IH; lia.
Qed.

Lemma list_remove_last x l : ~ In x l -> list_remove x (l ++ [x]) = Some l.
Proof.
  induction l as [|y l IH]; simpl; intros Hn.
  - now rewrite bool_decide_eq_true_2.
  - rewrite bool_decide_eq_false_2 by (intros ->; apply Hn; now left).
    rewrite IH; [reflexivity|]. intros Hin. apply Hn. now right.
Qed.

(** *** One call of a wrapped sync function *)

Lemma wrapped_duplicate desc func prov_id st :
  In (prov_id, desc) (running_sync_jobs st) ->
  exists line, wrapped desc func prov_id st = (Return tt, logger line st).
Proof.
  intros Hin. apply already_running_In in Hin.
  unfold wrapped. rewrite Hin. eauto.
Qed.

Lemma wrapped_fresh desc func prov_id st st2 :
  ~ In (prov_id, desc) (running_sync_jobs st) ->
  func prov_id (sync_enter desc prov_id st) = (Return tt, st2) ->
  running_sync_jobs st2 = running_sync_jobs st ++ [(prov_id, desc)] ->
  exists line,
    wrapped desc func prov_id st
    = (Return tt,
       signal_sync_status
         (set_running_sync_jobs (running_sync_jobs st) (logger line st2))).
Proof.
  intros Hn Hf Hjobs. apply already_running_false in Hn as Hr.
  unfold wrapped. rewrite Hr. unfold bind. rewrite Hf.
  unfold sync_exit. simpl. rewrite Hjobs, list_remove_last by exact Hn.
  eauto.
Qed.

(** *** Interleaved calls *)

Definition is_running_with (tag : sync_job) (t : task) : bool :=
  bool_decide (task_phase t = Running)
  && bool_decide ((task_prov t, task_desc t) = tag).

Lemma running_with_app tag ts1 t ts2 :
  length (running_with tag (ts1 ++ t :: ts2))
  = (length (running_with tag ts1)
     + (if is_running_with tag t then 1 else 0)
     + length (running_with tag ts2))%nat.
Proof.
  unfold running_with. rewrite List.filter_app, length_app. simpl.
  fold (is_running_with tag t).
  destruct (is_running_with tag t); simpl; lia.
Qed.

(** The invariant: the running tasks of a tag are as many as the entries
    of the tag in [running_sync_jobs], and there is at most one. *)
Definition jobs_match (s : system) : Prop :=
  forall tag,
    length (running_with tag (fst s)) = occurrences tag (running_sync_jobs (snd s))
    /\ (occurrences tag (running_sync_jobs (snd s)) <= 1)%nat.

Lemma jobs_match_init ts st :
  Forall (fun t => task_phase t = Pending) ts ->
  running_sync_jobs st = [] ->
  jobs_match (ts, st).
Proof.
  intros Hp Hj tag. simpl. rewrite Hj. unfold occurrences; simpl.
  split; [|lia].
  induction Hp as [|t ts Ht _ IH]; simpl; [reflexivity|].
  unfold running_with in *; simpl.
  rewrite Ht. rewrite bool_decide_eq_false_2 by discriminate. exact IH.
Qed.

Lemma is_running_with_set_phase tag t p :
  is_running_with tag (set_phase t p)
  = bool_decide (p = Running) && bool_decide ((task_prov t, task_desc t) = tag).
Proof. reflexivity. Qed.

Lemma is_running_with_phase tag t :
  is_running_with tag t
  = bool_decide (task_phase t = Running)
    && bool_decide ((task_prov t, task_desc t) = tag).
Proof. reflexivity. Qed.

Lemma jobs_match_step s s' : jobs_match s -> step s s' -> jobs_match s'.
Proof.
  intros Hinv Hstep.
  destruct Hstep as [ts1 t ts2 st Hp Hr | ts1 t ts2 st Hp Hr
                    | ts1 t ts2 st st' Hp Hx | ts st st' He];
    intros tag; specialize (Hinv tag); simpl in *;
    rewrite ?running_with_app, ?is_running_with_set_phase in *;
    rewrite ?is_running_with_phase, ?Hp in Hinv.
  - (* dropped *)
    rewrite !(bool_decide_eq_false_2 (_ = Running)) in * by discriminate.
    exact Hinv.
  - (* enter *)
    apply already_running_false in Hr.
    rewrite occurrences_app.
    rewrite (bool_decide_eq_false_2 (Pending = Running)) in Hinv by discriminate.
    rewrite (bool_decide_eq_true_2 (Running = Running)) by reflexivity.
    simpl in *. unfold occurrences at 2 4; simpl.
    destruct (decide ((task_prov t, task_desc t) = tag)) as [E|E].
    + rewrite !(bool_decide_eq_true_2 _ E). subst tag.
      rewrite (occurrences_not_In _ _ Hr) in *. simpl. lia.
    + rewrite !(bool_decide_eq_false_2 _ E). simpl. lia.
  - (* exit *)
    unfold sync_exit in Hx. simpl in Hx.
    destruct (list_remove _ _) as [jobs|] eqn:El; [|discriminate].
    injection Hx as <-. simpl.
    rewrite (list_remove_occurrences _ _ _ tag El) in Hinv.
    rewrite (bool_decide_eq_true_2 (Running = Running)) in Hinv by reflexivity.
    rewrite ?(bool_decide_eq_false_2 (Finished = Running)) by discriminate.
    simpl in *.
    destruct (decide ((task_prov t, task_desc t) = tag)) as [E|E].
    + rewrite !(bool_decide_eq_true_2 _ E) in *. simpl in *. lia.
    + rewrite !(bool_decide_eq_false_2 _ E) in *. simpl in *. lia.
  - (* environment *)
    unfold environment_step in He. rewrite He. exact Hinv.
Qed.

Lemma reachable_jobs_match s : reachable s -> jobs_match s.
Proof.
  induction 1 as [ts st Hp Hj | s s' _ IH Hstep].
  - now apply jobs_match_init.
  - now apply (jobs_match_step s).
Qed.

(** A task that is running can always finish: its tag is in the list. *)
Lemma running_task_exits ts1 t ts2 st :
  reachable (ts1 ++ t :: ts2, st) ->
  task_phase t = Running ->
  exists st', sync_exit (task_desc t) (task_prov t) st = (Return tt, st').
Proof.
  intros Hr Hp. apply reachable_jobs_match in Hr.
  destruct (Hr (task_prov t, task_desc t)) as [Hlen _]. simpl in Hlen.
  rewrite running_with_app in Hlen. unfold is_running_with in Hlen.
  rewrite Hp, !bool_decide_eq_true_2 in Hlen by reflexivity. simpl in Hlen.
  assert (Hin : In (task_prov t, task_desc t) (running_sync_jobs st))
    by (apply occurrences_pos_In; lia).
  unfold sync_exit; simpl.
  destruct (list_remove_In _ _ Hin) as (l' & ->). eauto.
Qed.


(** Sample runs: a sync function that does nothing, and one that calls
    the same wrapped function again while it runs. *)
Definition idle_sync (prov_id : string) : M unit := ret tt.

Definition reentrant_sync (prov_id : string) : M unit :=
  wrapped "albums" idle_sync prov_id.

Definition idle_state : State := mkState [] [] [] ∅ ∅ [].

Example sync_once_events :
  sync_events (snd (wrapped "albums" idle_sync "spotify" idle_state))
  = [[("spotify", "albums")]; []]%string.
Proof. reflexivity. Qed.

Example sync_reentrant_dropped :
  let st := snd (wrapped "albums" reentrant_sync "spotify" idle_state) in
  sync_events st = [[("spotify", "albums")]; []]%string /\
  running_sync_jobs st = [] /\
  log st = ["Syncjob albums for provider spotify is already running!";
            "Finished syncing albums for provider spotify"]%string.
Proof. repeat split. Qed.


(** ** Playlist edits *)

Lemma add_not_editable id tracks now st p :
  get_db_playlist id st = Some p -> is_editable p = false ->
  async_add_playlist_tracks id tracks now st = (Return (Some false), st).
Proof. intros Hp He. unfold async_add_playlist_tracks. now rewrite Hp, He. Qed.

Lemma remove_not_editable id tracks now st p :
  get_db_playlist id st = Some p -> is_editable p = false ->
  async_remove_playlist_tracks id tracks now st = (Return (Some false), st).
Proof. intros Hp He. unfold async_remove_playlist_tracks. now rewrite Hp, He. Qed.

Lemma add_editable id tracks now st p pp rest prov :
  get_db_playlist id st = Some p -> is_editable p = true ->
  playlist_provider_ids p = pp :: rest ->
  providers st !! provider pp = Some prov ->
  let ids := track_ids_to_add (provider pp)
               (cur_playlist_track_ids (playlist_tracks prov (item_id pp))) tracks in
  ids <> [] ->
  async_add_playlist_tracks id tracks now st
  = (Return (Some (add_playlist_tracks_result prov (item_id pp) ids)),
     forward (AddPlaylistTracks (provider pp) (item_id pp) ids)
       (async_update_playlist_checksum (playlist_item_id p) now st)).
Proof.
  intros Hp He Hpp Hprov ids Hids. unfold async_add_playlist_tracks.
  rewrite Hp, He, Hpp, Hprov. simpl. fold ids.
  destruct ids; [contradiction | reflexivity].
Qed.

Lemma remove_editable id tracks now st p pp rest prov :
  get_db_playlist id st = Some p -> is_editable p = true ->
  playlist_provider_ids p = pp :: rest ->
  providers st !! provider pp = Some prov ->
  let ids := track_ids_to_remove (provider pp) tracks in
  ids <> [] ->
  async_remove_playlist_tracks id tracks now st
  = (Return (Some (remove_playlist_tracks_result prov (item_id pp) ids)),
     forward (RemovePlaylistTracks (provider pp) (item_id pp) ids)
       (async_update_playlist_checksum (playlist_item_id p) now st)).
Proof.
  intros Hp He Hpp Hprov ids Hids. unfold async_remove_playlist_tracks.
  rewrite Hp, He, Hpp. simpl. fold ids.
  destruct ids; [contradiction|]. simpl. now rewrite Hprov.
Qed.

Lemma checksum_after_update id now st p :
  playlists st !! id = Some p ->
  playlists (async_update_playlist_checksum id now st) !! id
  = Some (set_checksum now p).
Proof. intros Hp. simpl. rewrite lookup_alter_eq. now rewrite Hp. Qed.


(** A sample library: playlist 12 lives on spotify and holds track t1. *)
Definition spotify_pid (id : string) (q : Z) : MediaItemProviderId :=
  mkProviderId "spotify" id q.

Definition track_t1 : Track := mkTrack "1" [spotify_pid "t1" 1].
Definition track_t2 : Track :=
  mkTrack "2" [mkProviderId "qobuz" "q2" 6; spotify_pid "t2lo" 0; spotify_pid "t2hi" 1].

Definition sample_spotify : MusicProvider :=
  mkMusicProvider (fun _ => [track_t1]) (fun _ _ => true) (fun _ _ => true).

Definition sample_playlist (editable : bool) : Playlist :=
  mkPlaylist "12" [spotify_pid "pl12" 0] (Some "c0"%string) editable.

Definition library (editable : bool) : State :=
  mkState [] [] [] {[ "12"%string := sample_playlist editable ]}
          {[ "spotify"%string := sample_spotify ]} [].

Example add_picks_best_version_and_skips_known :
  forwarded (snd (async_add_playlist_tracks "12" [track_t1; track_t2] "1730000000.5"
                    (library true)))
  = [AddPlaylistTracks "spotify" "pl12" ["t2hi"]]%string.
Proof. vm_compute. reflexivity. Qed.

Example add_rejected_when_not_editable :
  async_add_playlist_tracks "12" [track_t2] "1730000000.5" (library false)
  = (Return (Some false), library false).
Proof. vm_compute. reflexivity. Qed.


(** ** A sync job that fails *)

(** A sync function for a provider that is not loaded: its first statement,
    [self.providers[prov_id]], raises [KeyError]. *)
Definition failing_sync (prov_id : string) : M unit := raise KeyError.

(** X16. When the wrapped sync function raises, the exception leaves the
    wrapper before the tag is removed: the call raises, the tag stays in
    [running_sync_jobs], and from then on every call with this tag, whatever
    the function, only logs a line and returns. *)
Theorem failed_sync_job_keeps_tag
    (desc prov_id : string) (func : string -> M unit) (e : error) (st st2 : State) :
  ~ In (prov_id, desc) (running_sync_jobs st) ->
  func prov_id (sync_enter desc prov_id st) = (Raise e, st2) ->
  running_sync_jobs st2 = running_sync_jobs (sync_enter desc prov_id st) ->
  wrapped desc func prov_id st = (Raise e, st2) /\
  In (prov_id, desc) (running_sync_jobs st2) /\
  (forall func' st',
     running_sync_jobs st' = running_sync_jobs st2 ->
     exists line,
       wrapped desc func' prov_id st' = (Return tt, logger line st')).
Proof.
  intros Hn Hf Hjobs.
  assert (Hin : In (prov_id, desc) (running_sync_jobs st2)).
  { rewrite Hjobs. simpl. apply in_or_app. right. now left. }
  split; [|split; [exact Hin|]].
  - apply already_running_false in Hn.
    unfold wrapped. rewrite Hn. unfold bind. now rewrite Hf.
  - intros func' st' Hst'. apply wrapped_duplicate. now rewrite Hst'.
Qed.

Lemma failed_sync_job_keeps_tag_witness :
  let st2 := sync_enter "albums" "spotify" idle_state in
  wrapped "albums" failing_sync "spotify" idle_state = (Raise KeyError, st2) /\
  exists line,
    wrapped "albums" idle_sync "spotify" st2 = (Return tt, logger line st2).
Proof.
  destruct (failed_sync_job_keeps_tag "albums" "spotify" failing_sync KeyError
              idle_state (sync_enter "albums" "spotify" idle_state))
    as (Hrun & _ & Hlater).
  - simpl. tauto.
  - reflexivity.
  - reflexivity.
  - split; [exact Hrun|]. apply Hlater. reflexivity.
Defined.

(** ** The version of a track that is added to a playlist *)

Definition by_quality (a b : MediaItemProviderId) : Prop :=
  quality b <= quality a.

Lemma In_insert_by_quality x y l :
  In y (insert_by_quality x l) <-> y = x \/ In y l.
Proof.
  induction l as [|z l IH]; simpl; [intuition congruence|].
  destruct (quality z <=? quality x); simpl; [intuition congruence|].
  rewrite IH. intuition congruence.
Qed.

Lemma In_sorted_by_quality y l : In y (sorted_by_quality l) <-> In y l.
Proof.
  unfold sorted_by_quality. induction l as [|x l IH]; simpl; [reflexivity|].
  rewrite In_insert_by_quality, IH. intuition congruence.
Qed.

Lemma insert_by_quality_sorted x l :
  StronglySorted by_quality l -> StronglySorted by_quality (insert_by_quality x l).
Proof.
  induction l as [|z l IH]; simpl; intros Hs.
  - constructor; constructor.
  - apply StronglySorted_inv in Hs as Hinv. destruct Hinv as [Hl Hz].
    destruct (quality z <=? quality x) eqn:E.
    + apply Z.leb_le in E. constructor; [exact Hs|].
      constructor; [exact E|].
      eapply Forall_impl; [exact Hz|]. unfold by_quality. intros a Ha. simpl in Ha. lia.
    + apply Z.leb_gt in E. constructor; [now apply IH|].
      apply List.Forall_forall. intros a Ha. apply In_insert_by_quality in Ha as [->|Ha].
      * unfold by_quality. lia.
      * rewrite List.Forall_forall in Hz. now apply Hz.
Qed.

Lemma sorted_by_quality_sorted l : StronglySorted by_quality (sorted_by_quality l).
Proof.
  unfold sorted_by_quality. induction l as [|x l IH]; simpl; [constructor|].
  now apply insert_by_quality_sorted.
Qed.

Lemma pick_version_sorted p l :
  p <> "file"%string -> StronglySorted by_quality l ->
  match pick_version p l with
  | Some id =>
      exists v, In v l /\ provider v = p /\ item_id v = id /\
                forall w, In w l -> provider w = p -> quality w <= quality v
  | None => forall v, In v l -> provider v <> p
  end.
Proof.
  intros Hp. induction l as [|a l IH]; simpl; intros Hs; [tauto|].
  apply StronglySorted_inv in Hs as [Hl Ha]. rewrite List.Forall_forall in Ha.
  destruct (decide (provider a = p)) as [E|E].
  - rewrite (bool_decide_eq_true_2 _ E). exists a. repeat split; [now left | exact E|].
    intros w [<-|Hw] _; [lia | now apply Ha].
  - rewrite (bool_decide_eq_false_2 _ E), (bool_decide_eq_false_2 _ Hp).
    specialize (IH Hl). destruct (pick_version p l) as [id|].
    + destruct IH as (v & Hv & Hpv & Hid & Hmax). exists v.
      repeat split; [now right | exact Hpv | exact Hid|].
      intros w [<-|Hw] Hpw; [contradiction | now apply Hmax].
    + intros v [<-|Hv]; [exact E | now apply IH].
Qed.

Definition version_uri (v : MediaItemProviderId) : string :=
  (provider v +:+ "://" +:+ item_id v)%string.

Lemma pick_version_file l :
  pick_version "file" l
  = match l with
    | [] => None
    | v :: _ =>
        Some (if bool_decide (provider v = "file"%string) then item_id v
              else version_uri v)
    end.
Proof.
  destruct l as [|v l]; simpl; [reflexivity|].
  destruct (bool_decide (provider v = "file"%string)); reflexivity.
Qed.

(** X17. The id that [async_add_playlist_tracks] takes for a track, from
    the versions of the track sorted by quality.  For a playlist on any
    provider but ["file"]: if the track has a version on the provider of the
    playlist, the id is the item id of such a version, one of the highest
    quality among the versions on that provider; if it has none, no id is
    taken.  For a playlist on ["file"] and a track with a version: the id
    stands for a version of the highest quality of all, its item id when the
    version is on ["file"] and the uri [provider://item_id] otherwise. *)
Theorem added_version_has_best_quality
    (playlist_provider : string) (versions : list MediaItemProviderId) :
  (playlist_provider <> "file"%string ->
   match pick_version playlist_provider (sorted_by_quality versions) with
   | Some id =>
       exists v, In v versions /\ provider v = playlist_provider /\ item_id v = id /\
                 forall w, In w versions -> provider w = playlist_provider ->
                           quality w <= quality v
   | None => forall v, In v versions -> provider v <> playlist_provider
   end) /\
  (playlist_provider = "file"%string -> versions <> [] ->
   exists v, In v versions /\
             (forall w, In w versions -> quality w <= quality v) /\
             pick_version playlist_provider (sorted_by_quality versions)
             = Some (if bool_decide (provider v = "file"%string) then item_id v
                     else version_uri v)).
Proof.
  split.
  - intros Hp.
    pose proof (pick_version_sorted playlist_provider _ Hp
                  (sorted_by_quality_sorted versions)) as H.
    destruct (pick_version playlist_provider (sorted_by_quality versions)) as [id|].
    + destruct H as (v & Hv & Hpv & Hid & Hmax). exists v.
      rewrite In_sorted_by_quality in Hv. repeat split; try assumption.
      intros w Hw. apply Hmax. now apply In_sorted_by_quality.
    + intros v Hv. apply H. now apply In_sorted_by_quality.
  - intros -> Hne. rewrite pick_version_file.
    pose proof (sorted_by_quality_sorted versions) as Hs.
    pose proof (fun y => In_sorted_by_quality y versions) as Hin.
    destruct (sorted_by_quality versions) as [|v l].
    + destruct versions as [|x xs]; [congruence|].
      destruct (proj2 (Hin x)). now left.
    + exists v. split; [apply Hin; now left|]. split; [|reflexivity].
      apply StronglySorted_inv in Hs as [_ Hv]. rewrite List.Forall_forall in Hv.
      intros w Hw. apply Hin in Hw as [<-|Hw]; [lia | now apply Hv].
Qed.

Lemma added_version_has_best_quality_witness :
  (exists v, In v (track_provider_ids track_t2) /\ item_id v = "t2hi"%string /\
             forall w, In w (track_provider_ids track_t2) ->
                       provider w = "spotify"%string -> quality w <= quality v) /\
  pick_version "file" (sorted_by_quality (track_provider_ids track_t2))
  = Some "qobuz://q2"%string.
Proof.
  destruct (added_version_has_best_quality "spotify" (track_provider_ids track_t2))
    as [Hplain _].
  destruct (added_version_has_best_quality "file" (track_provider_ids track_t2))
    as [_ Hfile].
  split.
  - specialize (Hplain ltac:(discriminate)).
    change (pick_version "spotify" (sorted_by_quality (track_provider_ids track_t2)))
      with (Some "t2hi"%string) in Hplain.
    destruct Hplain as (v & Hv & _ & Hid & Hmax). exists v. auto.
  - reflexivity.
Defined.

(** ** Tracks that are in the playlist already *)

Definition known (cur : list string) (track : Track) : Prop :=
  In (track_item_id track) cur
  \/ exists v, In v (track_provider_ids track) /\ In (item_id v) cur.

Lemma already_exists_known cur track :
  bool_decide (track_item_id track ∈ cur)
  || existsb (fun track_prov => bool_decide (item_id track_prov ∈ cur))
             (track_provider_ids track) = true
  <-> known cur track.
Proof.
  rewrite orb_true_iff, bool_decide_eq_true, existsb_exists, list_elem_of_In.
  unfold known. split; (intros [H|(v & Hv & Hc)]; [now left | right; exists v; split; [exact Hv|]]).
  - apply bool_decide_eq_true in Hc. now apply list_elem_of_In.
  - apply bool_decide_eq_true. now apply list_elem_of_In.
Qed.

Lemma track_ids_to_add_new p cur tracks id :
  p <> "file"%string -> In id (track_ids_to_add p cur tracks) ->
  ~ In id cur /\
  exists track v,
    In track tracks /\ ~ known cur track /\
    In v (track_provider_ids track) /\ provider v = p /\ item_id v = id.
Proof.
  intros Hp Hin. unfold track_ids_to_add in Hin.
  apply in_flat_map in Hin as (track & Ht & Hin).
  destruct (bool_decide (track_item_id track ∈ cur) || _) eqn:E; [contradiction|].
  assert (Hk : ~ known cur track).
  { intros Hk. apply already_exists_known in Hk. congruence. }
  pose proof (pick_version_sorted p _ Hp
                (sorted_by_quality_sorted (track_provider_ids track))) as H.
  destruct (pick_version p (sorted_by_quality (track_provider_ids track))) as [id'|];
    [|contradiction].
  destruct Hin as [<-|[]]. destruct H as (v & Hv & Hpv & Hid & _).
  apply (proj1 (In_sorted_by_quality _ _)) in Hv. split.
  - intros Hc. apply Hk. right. exists v. split; [exact Hv | now rewrite Hid].
  - exists track, v. auto.
Qed.

Lemma track_ids_to_add_known p cur tracks :
  (forall track, In track tracks -> known cur track) ->
  track_ids_to_add p cur tracks = [].
Proof.
  intros Hk. unfold track_ids_to_add.
  induction tracks as [|t tracks IH]; simpl; [reflexivity|].
  rewrite (proj2 (already_exists_known cur t)) by (apply Hk; now left).
  simpl. apply IH. intros track Ht. apply Hk. now right.
Qed.



(** ** Playlist edits that cannot be made *)


(** A library whose playlist 12 lives on a provider that is not loaded. *)
Definition library_without_provider : State :=
  mkState [] [] [] {[ "12"%string := sample_playlist true ]} ∅ [].


End MusicManagerFacts.

(** * Facts about the player manager *)

Module PlayerManagerFacts.
Import PlayerManager.

Local Open Scope Qc_scope.

(** ** Volume commands *)

Definition in_range (c : command) : Prop :=
  match c with
  | ProviderVolumeSet _ _ v => (0 <= v <= 100)%Z
  | ControlSetState _ v => (0 <= v <= 100)%Z
  end.

Lemma clamp_volume_range v : (0 <= clamp_volume v <= 100)%Z.
Proof.
  unfold clamp_volume.
  destruct (v <? 0)%Z eqn:E1; [lia|].
  destruct (100 <? v)%Z eqn:E2; [lia|].
  apply Z.ltb_ge in E1, E2. lia.
Qed.

Lemma clamp_volume_id v : (0 <= v <= 100)%Z -> clamp_volume v = v.
Proof.
  intros Hv. unfold clamp_volume.
  destruct (v <? 0)%Z eqn:E1; [apply Z.ltb_lt in E1; lia|].
  destruct (100 <? v)%Z eqn:E2; [apply Z.ltb_lt in E2; lia|reflexivity].
Qed.

Lemma for_each_Forall {A} (P : command -> Prop)
    (body : A -> list command * outcome) l :
  (forall x, Forall P (fst (body x))) -> Forall P (fst (for_each body l)).
Proof.
  intros Hb. induction l as [|x l IH]; simpl; [constructor|].
  specialize (Hb x). destruct (body x) as [sent o]; simpl in *.
  destruct o; try exact Hb.
  destruct (for_each body l) as [sent' o']; simpl in *.
  apply Forall_app; now split.
Qed.

Section VolumeFacts.
Variable try_parse_int : Qc -> Z.

Abbreviation async_cmd_volume_set := (async_cmd_volume_set try_parse_int).

Lemma provider_volume_set_in_range pm player pid v :
  (0 <= v <= 100)%Z -> Forall in_range (fst (provider_volume_set pm player pid v)).
Proof.
  intros Hv. unfold provider_volume_set. destruct (bool_decide _); simpl.
  - constructor; [exact Hv | constructor].
  - constructor.
Qed.

(** Whatever the player and the requested level, and however the call
    ends, every command sent carries a level between 0 and 100. *)
Lemma volume_commands_in_range fuel : forall pm player_id volume_level,
  Forall in_range (fst (async_cmd_volume_set fuel pm player_id volume_level)).
Proof.
  induction fuel as [|fuel IH]; intros pm pid v; simpl; [constructor|].
  destruct (_players pm !! pid) as [player|]; simpl; [|constructor].
  destruct (powered player); simpl; [|constructor].
  pose proof (clamp_volume_range (try_parse_int v)) as Hc.
  destruct (conf_volume_control pm (player_id player)) as [control|].
  - destruct (bool_decide _); simpl; [|constructor].
    pose proof (provider_volume_set_in_range pm player pid 100 ltac:(lia)) as Hp.
    destruct (provider_volume_set pm player pid 100) as [sent o]; simpl in *.
    constructor; [exact Hc | exact Hp].
  - destruct (is_group_player player).
    + apply for_each_Forall. intros call. apply IH.
    + now apply provider_volume_set_in_range.
Qed.

Lemma volume_set_unpowered fuel pm pid v player :
  _players pm !! pid = Some player -> powered player = false ->
  async_cmd_volume_set (S fuel) pm pid v = ([], Done).
Proof. intros Hp Hoff. simpl. now rewrite Hp, Hoff. Qed.

Lemma volume_set_plain fuel pm pid v player :
  _players pm !! pid = Some player -> powered player = true ->
  conf_volume_control pm (player_id player) = None ->
  is_group_player player = false ->
  provider_id player ∈ provider_registry pm ->
  async_cmd_volume_set (S fuel) pm pid v
  = ([ProviderVolumeSet (provider_id player) pid (clamp_volume (try_parse_int v))],
     Done).
Proof.
  intros Hp Hon Hc Hg Hr. simpl. rewrite Hp, Hon, Hc, Hg. simpl.
  unfold provider_volume_set. now rewrite bool_decide_eq_true_2.
Qed.


(** *** The volume of a group *)

Lemma volume_dif_percent_same cur V :
  cur <> 0 -> Qc_of_Z V = cur -> volume_dif_percent cur V = 0.
Proof.
  intros Hnz HV. unfold volume_dif_percent. rewrite HV.
  destruct (Qeq_bool cur 0) eqn:E.
  - apply Qeq_bool_iff in E. exfalso. apply Hnz.
    apply Qc_is_canon. exact E.
  - unfold Qcdiv. ring.
Qed.

Lemma active_childs_spec pm g cid c :
  In (cid, c) (active_childs pm g) ->
  In cid (group_childs g) /\ _players pm !! cid = Some c
  /\ available c = true /\ powered c = true.
Proof.
  unfold active_childs. intros Hin.
  apply list_elem_of_In, list_elem_of_omap in Hin as (id & Hid & Hsome).
  apply list_elem_of_In in Hid.
  destruct (_players pm !! id) as [c'|] eqn:El; [|discriminate].
  destruct (available c' && powered c') eqn:Ea; [|discriminate].
  injection Hsome as <- <-. apply andb_true_iff in Ea as [Ha Hp].
  auto.
Qed.

End VolumeFacts.

(** ** Sample players: a group of two chromecast speakers *)

(** A [try_parse_int] to run the commands with: [int(x)]. *)
Definition sample_try_parse_int (q : Qc) : Z := py_int (this q).

Definition speaker (id : string) (vol : Z) : Player :=
  mkPlayer id "chromecast" true true (Qc_of_Z vol) false [].

Definition living_group (vol : Z) : Player :=
  mkPlayer "group" "chromecast" true true (Qc_of_Z vol) true ["kitchen"; "hall"]%string.

Definition house (group_vol kitchen_vol hall_vol : Z) : Manager :=
  mkManager
    (<["group"%string := living_group group_vol]>
       (<["kitchen"%string := speaker "kitchen" kitchen_vol]>
          {[ "hall"%string := speaker "hall" hall_vol ]}))
    ∅ ∅ {[ "chromecast"%string ]} (fun _ => None).

Definition sample_volume_set :=
  async_cmd_volume_set sample_try_parse_int.

Example group_volume_scaled :
  sample_volume_set 2 (house 50 40 60) "group" (Qc_of_Z 75)
  = ([ProviderVolumeSet "chromecast" "kitchen" 60;
      ProviderVolumeSet "chromecast" "hall" 90], Done).
Proof. vm_compute. reflexivity. Qed.





(** ** Playing media *)

Lemma map_track_imap (f : nat -> MediaItem -> QueueItem) (l : list MediaItem) :
  (forall i x, track (f i x) = x) -> List.map track (imap f l) = l.
Proof.
  revert f. induction l as [|x l IH]; intros f Hf; simpl; [reflexivity|].
  rewrite Hf. f_equal. apply IH. intros i y. apply Hf.
Qed.

Section PlayMediaFacts.
Variable artist_toptracks album_tracks playlist_tracks :
  string -> string -> list MediaItem.
Variable uuid : nat -> string.
Variable local_ip http_port : string.

Abbreviation tracks_of := (tracks_of artist_toptracks album_tracks playlist_tracks).
Abbreviation expand := (expand artist_toptracks album_tracks playlist_tracks).
Abbreviation queue_items_of :=
  (queue_items_of artist_toptracks album_tracks playlist_tracks uuid local_ip http_port).
Abbreviation async_play_media :=
  (async_play_media artist_toptracks album_tracks playlist_tracks uuid local_ip
                    http_port).

Lemma queue_items_tracks player_id media_items :
  List.map track (queue_items_of player_id media_items) = expand media_items.
Proof. unfold PlayerManager.queue_items_of. now apply map_track_imap. Qed.

Lemma queue_call_load l opt :
  opt = Replace \/ ((10 < length l)%nat /\ (opt = Play \/ opt = Next)) ->
  queue_call l opt = Load l.
Proof.
  intros H. unfold queue_call.
  assert (bool_decide (opt = Replace)
          || ((10 <? length l)%nat && bool_decide (opt = Play \/ opt = Next))
          = true) as ->; [|reflexivity].
  destruct H as [-> | [Hlen Hopt]]; [reflexivity|].
  apply orb_true_iff. right. apply andb_true_iff. split.
  - now apply Nat.ltb_lt.
  - now apply bool_decide_eq_true.
Qed.

Lemma queue_call_short l opt :
  (length l <= 10)%nat -> opt <> Replace ->
  queue_call l opt
  = match opt with
    | Next => Insert l 1 | Play => Insert l 0 | Add => Append l
    | Replace => Load l
    end.
Proof.
  intros Hlen Hopt. unfold queue_call.
  rewrite (bool_decide_eq_false_2 _ Hopt).
  assert ((10 <? length l)%nat = false) as -> by (apply Nat.ltb_ge; lia).
  reflexivity.
Qed.

Lemma queue_call_add l : queue_call l Add = Append l.
Proof.
  unfold queue_call. simpl. now rewrite andb_false_r.
Qed.

End PlayMediaFacts.

(** A sample: an album of 12 tracks and a single track. *)
Definition song (n : nat) : MediaItem :=
  mkMediaItem Track (pretty n) "spotify" "song".

Definition abbey_road : MediaItem := mkMediaItem Album "ar" "spotify" "Abbey Road".

Definition sample_album_tracks (id prov : string) : list MediaItem :=
  List.map song (seq 0 12).

Definition sample_play_media :=
  async_play_media (fun _ _ => []) sample_album_tracks (fun _ _ => [])
                   (fun n => ("uuid-" +:+ pretty n)%string) "192.168.1.2" "8095".

Definition house_with_queue : Manager :=
  mkManager {[ "kitchen"%string := speaker "kitchen" 40 ]}
            {[ "kitchen"%string := mkPlayerQueue [] 0 ]}
            ∅ {[ "chromecast"%string ]} (fun _ => None).

Example play_album_next_replaces_queue :
  let '(call, pm', o) := sample_play_media house_with_queue "kitchen" [abbey_road] Next in
  (List.map track <$> (items <$> _player_queues pm' !! "kitchen"%string))
    = Some (List.map song (seq 0 12)) /\ o = Done.
Proof. vm_compute. split; reflexivity. Qed.

Example play_single_track_next_inserts :
  fst (fst (sample_play_media house_with_queue "kitchen" [song 3] Next))
  = Some (Insert [mkQueueItem (song 3) "uuid-0"
                    "http://192.168.1.2:8095/stream/kitchen/uuid-0"] 1).
Proof. vm_compute. reflexivity. Qed.


(** ** Volume up and down *)

Lemma this_Qc_of_Z z : this (Qc_of_Z z) = inject_Z z.
Proof.
  unfold Qc_of_Z. simpl. apply Qred_identity. simpl. apply Z.gcd_1_r.
Qed.

Lemma Qc_of_Z_inj a b : Qc_of_Z a = Qc_of_Z b -> a = b.
Proof.
  intros H. apply (f_equal this) in H. rewrite !this_Qc_of_Z in H.
  now injection H.
Qed.

Lemma Qc_of_Z_plus a b : Qc_of_Z a + Qc_of_Z b = Qc_of_Z (a + b).
Proof.
  apply Qc_is_canon. unfold Qc_of_Z, Qcplus, Q2Qc; simpl.
  rewrite !Qred_correct. rewrite inject_Z_plus. reflexivity.
Qed.

Lemma Qc_of_Z_minus a b : Qc_of_Z a - Qc_of_Z b = Qc_of_Z (a - b).
Proof.
  replace a with ((a - b) + b)%Z at 1 by lia.
  rewrite <- Qc_of_Z_plus. ring.
Qed.

Lemma Qc_ltb_Z a b : Qc_ltb (Qc_of_Z a) (Qc_of_Z b) = (a <? b)%Z.
Proof.
  unfold Qc_ltb. rewrite !this_Qc_of_Z.
  destruct (Qle_bool (inject_Z b) (inject_Z a)) eqn:E; simpl; symmetry.
  - apply Qle_bool_iff in E. rewrite <- Zle_Qle in E. apply Z.ltb_ge. exact E.
  - apply Z.ltb_lt. apply Z.lt_nge. intros Hle. rewrite Zle_Qle in Hle.
    apply Qle_bool_iff in Hle. congruence.
Qed.

Lemma sample_try_parse_int_Z z : sample_try_parse_int (Qc_of_Z z) = z.
Proof.
  unfold sample_try_parse_int. rewrite this_Qc_of_Z. unfold py_int. simpl.
  apply Z.quot_1_r.
Qed.

Section VolumeStepFacts.
Variable try_parse_int : Qc -> Z.
(** [try_parse_int] gives an [int] back as it is. *)
Hypothesis try_parse_int_Z : forall z, try_parse_int (Qc_of_Z z) = z.

(** X20. [async_cmd_volume_up] and [async_cmd_volume_down] raise
    [KeyError] and send nothing for a player that is not registered.  For a
    powered plain player (no volume control, not a group, provider loaded)
    at a whole level [v] in 0..100 they send the provider one command:
    volume up the level [v + 1], but 100 at most; volume down the level
    [v - 1], but 0 at least. *)
Theorem volume_steps_saturate (pm : Manager) (player_id : string) :
  (_players pm !! player_id = None ->
   forall fuel,
     async_cmd_volume_up try_parse_int fuel pm player_id = ([], Raised KeyError) /\
     async_cmd_volume_down try_parse_int fuel pm player_id = ([], Raised KeyError)) /\
  (forall player v,
     _players pm !! player_id = Some player ->
     powered player = true ->
     conf_volume_control pm (PlayerManager.player_id player) = None ->
     is_group_player player = false ->
     provider_id player ∈ provider_registry pm ->
     volume_level player = Qc_of_Z v -> (0 <= v <= 100)%Z ->
     forall fuel,
       async_cmd_volume_up try_parse_int (S fuel) pm player_id
       = ([ProviderVolumeSet (provider_id player) player_id (Z.min (v + 1) 100)],
          Done) /\
       async_cmd_volume_down try_parse_int (S fuel) pm player_id
       = ([ProviderVolumeSet (provider_id player) player_id (Z.max (v - 1) 0)],
          Done)).
Proof.
  split.
  - intros Hp fuel. unfold async_cmd_volume_up, async_cmd_volume_down.
    now rewrite Hp.
  - intros player v Hp Hon Hc Hg Hr Hv Hrange fuel.
    unfold async_cmd_volume_up, async_cmd_volume_down. rewrite Hp, Hv.
    change 1 with (Qc_of_Z 1). change 0 with (Qc_of_Z 0).
    rewrite Qc_of_Z_plus, Qc_of_Z_minus, !Qc_ltb_Z.
    rewrite !(volume_set_plain try_parse_int fuel pm player_id _ player Hp Hon Hc Hg Hr).
    split.
    + destruct (100 <? v + 1)%Z eqn:E; rewrite try_parse_int_Z.
      * apply Z.ltb_lt in E. rewrite Z.min_r by lia. reflexivity.
      * apply Z.ltb_ge in E. rewrite Z.min_l, clamp_volume_id by lia. reflexivity.
    + destruct (v - 1 <? 0)%Z eqn:E; rewrite try_parse_int_Z.
      * apply Z.ltb_lt in E. rewrite Z.max_r by lia. reflexivity.
      * apply Z.ltb_ge in E. rewrite Z.max_l, clamp_volume_id by lia. reflexivity.
Qed.
End VolumeStepFacts.

Lemma volume_steps_saturate_witness :
  async_cmd_volume_up sample_try_parse_int 1 (house 50 100 0) "kitchen"
    = ([ProviderVolumeSet "chromecast" "kitchen" 100], Done) /\
  async_cmd_volume_down sample_try_parse_int 1 (house 50 40 60) "kitchen"
    = ([ProviderVolumeSet "chromecast" "kitchen" 39], Done).
Proof.
  split.
  - destruct (volume_steps_saturate sample_try_parse_int sample_try_parse_int_Z
                (house 50 100 0) "kitchen") as [_ Hstep].
    refine (proj1 (Hstep (speaker "kitchen" 100) 100%Z _ _ _ _ _ _ _ 0%nat));
      try reflexivity; lia.
  - destruct (volume_steps_saturate sample_try_parse_int sample_try_parse_int_Z
                (house 50 40 60) "kitchen") as [_ Hstep].
    refine (proj2 (Hstep (speaker "kitchen" 40) 40%Z _ _ _ _ _ _ _ 0%nat));
      try reflexivity; lia.
Defined.

(** ** Power off *)

Lemma for_each_child_Done body l sent :
  for_each_child body l = (sent, Done) ->
  forall x, In x l -> snd (body x) = Done.
Proof.
  revert sent. induction l as [|y l IH]; simpl; intros sent Hrun x Hx; [contradiction|].
  destruct (body y) as [s o] eqn:Ey. destruct o; try discriminate.
  destruct (for_each_child body l) as [s' o'] eqn:El.
  injection Hrun as _ ->.
  destruct Hx as [<-|Hx]; [now rewrite Ey | now apply (IH s')].
Qed.

Section PowerFacts.
Variable conf_power_control : string -> option string.

Abbreviation async_cmd_power_off := (async_cmd_power_off conf_power_control).
Abbreviation power_off_own := (power_off_own conf_power_control).

(** A child that is registered, is no group and has its provider loaded. *)
Definition plain_child (pm : Manager) (child_player_id : string) : Prop :=
  exists c, _players pm !! child_player_id = Some c /\
            is_group_player c = false /\
            provider_id c ∈ provider_registry pm.

(** What is sent for a child that is a plain player. *)
Definition child_off (pm : Manager) (child_player_id : string) : list power_command :=
  match _players pm !! child_player_id with
  | Some c => power_off_own pm c child_player_id
  | None => []
  end.

Lemma power_off_plain fuel pm cid :
  plain_child pm cid ->
  async_cmd_power_off (S fuel) pm cid = (child_off pm cid, Done).
Proof.
  intros (c & Hc & Hg & Hr). unfold child_off. simpl.
  now rewrite Hc, (bool_decide_eq_true_2 _ Hr), Hg.
Qed.

Lemma for_each_child_plain fuel pm l :
  Forall (plain_child pm) l ->
  for_each_child (async_cmd_power_off (S fuel) pm) l
  = (flat_map (child_off pm) l, Done).
Proof.
  induction 1 as [|x l Hx _ IH]; [reflexivity|].
  cbn [for_each_child flat_map]. rewrite (power_off_plain fuel pm x Hx), IH.
  reflexivity.
Qed.

Lemma for_each_child_unknown fuel pm l1 bad l2 :
  Forall (plain_child pm) l1 -> _players pm !! bad = None ->
  for_each_child (async_cmd_power_off (S fuel) pm) (l1 ++ bad :: l2)
  = (flat_map (child_off pm) l1, Raised KeyError).
Proof.
  intros Hl Hbad. induction Hl as [|x l Hx _ IH].
  - simpl. now rewrite Hbad.
  - cbn [app for_each_child flat_map]. rewrite (power_off_plain fuel pm x Hx), IH.
    reflexivity.
Qed.

Lemma power_off_own_group fuel pm gid g :
  _players pm !! gid = Some g ->
  is_group_player g = true ->
  provider_id g ∈ provider_registry pm ->
  async_cmd_power_off (S fuel) pm gid
  = (let (sent', o) := for_each_child (async_cmd_power_off fuel pm) (group_childs g) in
     (power_off_own pm g gid ++ sent', o)).
Proof.
  intros Hg Hgrp Hr. cbn [PlayerManager.async_cmd_power_off].
  now rewrite Hg, (bool_decide_eq_true_2 _ Hr), Hgrp.
Qed.

(** X21. [async_cmd_power_off] on a group whose provider is loaded turns
    off the group itself and then every player of [group_childs], in order
    and whether or not the child is available or powered, when each child is
    a registered plain player.  At the first child id that is not registered
    the call raises [KeyError], after the group and the children before it
    have been turned off.  A group that has itself among its children never
    ends normally. *)
Theorem power_off_group_turns_off_children
    (pm : Manager) (group_id : string) (group : Player) :
  _players pm !! group_id = Some group ->
  is_group_player group = true ->
  provider_id group ∈ provider_registry pm ->
  (Forall (plain_child pm) (group_childs group) ->
   forall fuel,
     async_cmd_power_off (S (S fuel)) pm group_id
     = (power_off_own pm group group_id
        ++ flat_map (child_off pm) (group_childs group), Done)) /\
  (forall l1 bad l2,
     group_childs group = l1 ++ bad :: l2 ->
     Forall (plain_child pm) l1 -> _players pm !! bad = None ->
     forall fuel,
       async_cmd_power_off (S (S fuel)) pm group_id
       = (power_off_own pm group group_id ++ flat_map (child_off pm) l1,
          Raised KeyError)) /\
  (In group_id (group_childs group) ->
   forall fuel, snd (async_cmd_power_off fuel pm group_id) <> Done).
Proof.
  intros Hg Hgrp Hr. split; [|split].
  - intros Hall fuel. rewrite (power_off_own_group _ pm group_id group Hg Hgrp Hr).
    now rewrite for_each_child_plain.
  - intros l1 bad l2 Hl Hall Hbad fuel.
    rewrite (power_off_own_group _ pm group_id group Hg Hgrp Hr), Hl.
    now rewrite for_each_child_unknown.
  - intros Hself fuel. induction fuel as [|fuel IH]; [discriminate|].
    rewrite (power_off_own_group _ pm group_id group Hg Hgrp Hr).
    destruct (for_each_child (async_cmd_power_off fuel pm) (group_childs group))
      as [sent' o] eqn:E.
    simpl. intros ->. apply IH.
    apply (for_each_child_Done _ _ _ E). exact Hself.
Qed.
End PowerFacts.

(** The hall speaker is off; the group still turns it off. *)
Definition house_hall_off : Manager :=
  mkManager
    (<["group"%string := living_group 50]>
       (<["kitchen"%string := speaker "kitchen" 40]>
          {[ "hall"%string :=
               mkPlayer "hall" "chromecast" false false (Qc_of_Z 60) false [] ]}))
    ∅ ∅ {[ "chromecast"%string ]} (fun _ => None).

Lemma power_off_group_turns_off_children_witness :
  async_cmd_power_off (fun _ => None) 2 house_hall_off "group"
  = ([ProviderPowerOff "chromecast" "group";
      ProviderPowerOff "chromecast" "kitchen";
      ProviderPowerOff "chromecast" "hall"], Done).
Proof.
  destruct (power_off_group_turns_off_children (fun _ => None) house_hall_off
              "group" (living_group 50)) as (Hall & _).
  - reflexivity.
  - reflexivity.
  - vm_compute. reflexivity.
  - apply (Hall) with (fuel := 0%nat).
    repeat constructor.
    + exists (speaker "kitchen" 40). split; [reflexivity|]. split; reflexivity.
    + eexists. split; [reflexivity|]. split; reflexivity.
Defined.

(** ** The calculated volume of a group *)

Definition sum_Qc (l : list Qc) : Qc := fold_right Qcplus 0 l.

Lemma sum_volumes_from acc l :
  fold_left (fun group_volume child => group_volume + volume_level (snd child)) l acc
  = acc + sum_volumes l.
Proof.
  unfold sum_volumes. revert acc. induction l as [|c l IH]; intros acc; simpl.
  - ring.
  - rewrite (IH (acc + _)), (IH (0 + _)). ring.
Qed.

Lemma sum_volumes_cons c l :
  sum_volumes (c :: l) = volume_level (snd c) + sum_volumes l.
Proof.
  unfold sum_volumes at 1. simpl. rewrite sum_volumes_from. ring.
Qed.

Lemma Qc_of_nat_S n :
  Qc_of_Z (Z.of_nat (S n)) = 1 + Qc_of_Z (Z.of_nat n).
Proof.
  change 1 with (Qc_of_Z 1). rewrite Qc_of_Z_plus. f_equal. lia.
Qed.

Lemma Qc_of_nat_pos n : 0 < Qc_of_Z (Z.of_nat (S n)).
Proof.
  unfold Qclt. rewrite this_Qc_of_Z. change (this 0) with (inject_Z 0).
  rewrite <- Zlt_Qlt. lia.
Qed.

Lemma sum_volumes_bounds lo hi l :
  (forall c, In c l -> lo <= volume_level (snd c) /\ volume_level (snd c) <= hi) ->
  lo * Qc_of_Z (Z.of_nat (length l)) <= sum_volumes l /\
  sum_volumes l <= hi * Qc_of_Z (Z.of_nat (length l)).
Proof.
  induction l as [|c l IH]; intros Hb.
  - simpl. change (Qc_of_Z 0) with 0. unfold sum_volumes. simpl.
    rewrite !Qcmult_0_r. split; apply Qcle_refl.
  - destruct (Hb c (or_introl eq_refl)) as [Hlo Hhi].
    destruct IH as [IHlo IHhi]; [intros c' Hc'; apply Hb; now right|].
    cbn [length]. rewrite Qc_of_nat_S, sum_volumes_cons.
    rewrite !Qcmult_plus_distr_r, !Qcmult_1_r.
    split; now apply Qcplus_le_compat.
Qed.

Lemma volume_dif_percent_nonzero cur V :
  cur <> 0 -> volume_dif_percent cur V = (Qc_of_Z V - cur) / cur.
Proof.
  intros Hnz. unfold volume_dif_percent.
  destruct (Qeq_bool cur 0) eqn:E; [|reflexivity].
  apply Qeq_bool_iff in E. exfalso. apply Hnz. apply Qc_is_canon. exact E.
Qed.

Lemma sum_scaled d (l : list (string * Player)) :
  sum_Qc (List.map snd
            (List.map (fun child =>
                         (fst child,
                          volume_level (snd child) + volume_level (snd child) * d))
                      l))
  = sum_volumes l * (1 + d).
Proof.
  induction l as [|c l IH].
  - unfold sum_volumes. simpl. ring.
  - cbn [List.map sum_Qc fold_right snd]. fold (sum_Qc (List.map snd
       (List.map (fun child =>
                    (fst child,
                     volume_level (snd child) + volume_level (snd child) * d)) l))).
    rewrite IH, sum_volumes_cons. ring.
Qed.

(** The player has no volume control: none is set, or the one that is set
    is not registered. *)
Definition no_volume_control (pm : Manager) (player : Player) : Prop :=
  match conf_volume_control pm (player_id player) with
  | Some control => control ∉ _controls pm
  | None => True
  end.

Section PlayerStateFacts.
Variable control_state : string -> Qc.

Abbreviation get_player_volume_level := (get_player_volume_level control_state).

Lemma group_volume_level pm player :
  available player = true -> no_volume_control pm player ->
  is_group_player player = true ->
  get_player_volume_level pm player
  = if (length (active_childs pm player) =? 0)%nat
    then sum_volumes (active_childs pm player)
    else sum_volumes (active_childs pm player)
         / Qc_of_Z (Z.of_nat (length (active_childs pm player))).
Proof.
  intros Ha Hc Hg. unfold PlayerManager.get_player_volume_level, no_volume_control in *.
  rewrite Ha, Hg. simpl.
  destruct (conf_volume_control pm (player_id player)) as [control|]; [|reflexivity].
  now rewrite (bool_decide_eq_false_2 _ Hc).
Qed.


End PlayerStateFacts.



(** ** Polling *)

(** The players one run updates: with [full] all that want polling,
    without it those of them that are playing. *)
Definition polled (players : list PolledPlayer) (full : bool) : list string :=
  List.map polled_player_id
    (List.filter (fun player => should_poll player && (full || playing player))
                 players).

Lemma poll_task_tick players t :
  (0 <= t <= 10)%Z ->
  poll_task players t = (polled players (t =? 10)%Z, ((t + 1) mod 11)%Z).
Proof.
  intros Ht. unfold poll_task, polled, POLL_INTERVAL.
  destruct (Z.eq_dec t 10) as [->|Hne]; [reflexivity|].
  assert ((10 <=? t)%Z = false) as -> by (apply Z.leb_gt; lia).
  assert ((t =? 10)%Z = false) as -> by (now apply Z.eqb_neq).
  rewrite Z.mod_small by lia. reflexivity.
Qed.

(** X24. [_poll_ticks] counts 0, 1, ..., 10 and starts over: from ticks
    [t] in 0..10, [n] runs of [poll_task] leave the ticks at [(t + n) mod
    11].  A run at ticks 10 updates every player that wants polling, any
    other run only those of them that are playing; so a player that is not
    playing is polled on every eleventh run, and a player that does not
    want polling never. *)
Theorem poll_task_polls_all_every_eleventh_run
    (players : list PolledPlayer) (n : nat) (t : Z) :
  (0 <= t <= 10)%Z ->
  snd (poll_runs n players t) = ((t + Z.of_nat n) mod 11)%Z /\
  length (fst (poll_runs n players t)) = n /\
  forall k, (k < n)%nat ->
    nth k (fst (poll_runs n players t)) []
    = polled players ((t + Z.of_nat k) mod 11 =? 10)%Z.
Proof.
  revert t. induction n as [|n IH]; intros t Ht.
  - simpl. rewrite Z.add_0_r, Z.mod_small by lia. repeat split. intros k Hk. lia.
  - cbn [poll_runs]. rewrite (poll_task_tick players t Ht).
    assert (Ht' : (0 <= (t + 1) mod 11 <= 10)%Z).
    { pose proof (Z.mod_pos_bound (t + 1) 11 ltac:(lia)). lia. }
    destruct (IH _ Ht') as (Hfinal & Hlen & Hnth).
    destruct (poll_runs n players ((t + 1) mod 11)) as [rest final].
    simpl in *. split; [|split].
    + rewrite Hfinal, Zplus_mod_idemp_l. f_equal. lia.
    + now rewrite Hlen.
    + intros [|k] Hk.
      * rewrite Z.add_0_r, Z.mod_small by lia. reflexivity.
      * rewrite Hnth by lia. rewrite Zplus_mod_idemp_l. do 3 f_equal. lia.
Qed.

(** Three players: one idle, one playing, one that is never polled. *)
Definition sample_polled : list PolledPlayer :=
  [mkPolledPlayer "kitchen" true false; mkPolledPlayer "hall" true true;
   mkPolledPlayer "cast" false true].

Lemma poll_task_polls_all_every_eleventh_run_witness :
  snd (poll_runs 12 sample_polled 0) = 1%Z /\
  nth 10 (fst (poll_runs 12 sample_polled 0)) [] = ["kitchen"; "hall"]%string /\
  nth 11 (fst (poll_runs 12 sample_polled 0)) [] = ["hall"]%string.
Proof.
  destruct (poll_task_polls_all_every_eleventh_run sample_polled 12 0)
    as (Hfinal & _ & Hnth); [lia|].
  split; [exact Hfinal|].
  split; [exact (Hnth 10%nat ltac:(lia)) | exact (Hnth 11%nat ltac:(lia))].
Defined.

End PlayerManagerFacts.
